(** * cudf: validity unpacking ([mask_to_bools]) and table transposition

    A shallow embedding of [cpp/src/transform/mask_to_bools.cu] and of the
    transpose translation unit that follows it in the same file:
    [detail::mask_to_bools], the kernels [gpu_transpose] and
    [gpu_transpose_valids], the functor [launch_kernel] and
    [detail::transpose].

    [size_type] is a signed 32-bit integer, modelled as [Z]; the loop
    increments of the kernels are wrapped explicitly ([wrap32]).  Device
    memory is modelled as lists: a column's payload is a [list Z] (one
    fixed-width element per entry), a validity bitmask is a list of 32-bit
    words. *)

From Stdlib Require Import ZArith Lia String.
From stdpp Require Import base tactics option list list_numbers.

Local Open Scope Z_scope.

(** ** Machine integers *)

Definition INT_MAX : Z := 2147483647.

(** Two's complement wrap-around of a [size_type] computation. *)
Definition wrap32 (z : Z) : Z := (z + 2147483648) mod 4294967296 - 2147483648.

(** ** Errors

    [CUDF_EXPECTS(cond, msg)] throws [cudf::logic_error(msg)] when [cond]
    is false.  The three failures of this file are told apart by their
    message. *)

Inductive error : Type :=
| logic_error (what : string).

Definition InvalidArgument : error := logic_error "nullmask is null".
Definition TypeMismatch : error := logic_error "Column type mismatch".
Definition UnsupportedType : error := logic_error "Invalid, non-fixed-width type.".

Inductive result (A : Type) : Type :=
| Ok (a : A)
| Throw (e : error)
| OutOfFuel.
Arguments Ok {A} a.
Arguments Throw {A} e.
Arguments OutOfFuel {A}.

(** ** Types and columns *)

Inductive type_id : Type :=
| EMPTY | INT8 | INT16 | INT32 | INT64 | FLOAT32 | FLOAT64 | BOOL8
| TIMESTAMP_DAYS | TIMESTAMP_SECONDS | TIMESTAMP_MILLISECONDS
| TIMESTAMP_MICROSECONDS | TIMESTAMP_NANOSECONDS | CATEGORY | STRING.

#[global] Instance type_id_eq_dec : EqDecision type_id.
Proof. solve_decision. Defined.

(** Modelled from the spec: [is_fixed_width] (cudf/utilities/traits.hpp is
    not part of the sources).  A fixed-width type is an element type with a
    constant size, which excludes variable-length text; the empty type has
    no elements at all. *)
Definition is_fixed_width (t : type_id) : bool :=
  match t with
  | STRING | EMPTY => false
  | _ => true
  end.

Definition bitmask_type : Type := Z.

(** A column (and a view of it): element type, number of rows, payload,
    optional validity bitmask, recorded null count and the offset of the
    first row in payload and bitmask. *)
Record column : Type := mk_column {
  type : type_id;
  size : Z;
  data : list Z;
  null_mask : option (list bitmask_type);
  null_count : Z;
  offset : Z
}.

(** ** Bit utilities

    Modelled from the spec: [word_index], [intra_word_index] and
    [bit_is_set] (cudf/utilities/bit.hpp is not part of the sources): bit
    [k] of a bitmask lives in the 32-bit word [k / 32] at position
    [k mod 32]. *)

Definition WARP_SIZE : Z := 32.
Definition MAX_GRID_SIZE : Z := 65535.

Definition word_index (bit_index : Z) : Z := bit_index / 32.
Definition intra_word_index (bit_index : Z) : Z := bit_index mod 32.

(** Reading device memory at word [k]; a word outside the allocation reads
    as 0 in the model. *)
Definition read_word (m : list bitmask_type) (k : Z) : bitmask_type :=
  default 0 (m !! Z.to_nat k).

Definition bit_is_set (bitmask : list bitmask_type) (bit_index : Z) : bool :=
  Z.testbit (read_word bitmask (word_index bit_index)) (intra_word_index bit_index).

(** ** [mask_to_bools] *)

(** Modelled from the spec: [make_fixed_width_column] with
    [mask_state::UNALLOCATED] (cudf/column/column_factories.hpp is not part
    of the sources): a new column of [sz] elements without a bitmask; the
    payload is given by the caller of the model. *)
Definition make_fixed_width_column (t : type_id) (sz : Z) (payload : list Z) : column :=
  mk_column t sz payload None 0 0.

(** The result of [mask_to_bools] together with the bit indices at which
    the bitmask pointer was dereferenced, in the order of the counting
    iterator. *)
Record unpacked : Type := mk_unpacked {
  out_col : column;
  derefs : list Z
}.

Definition of_bool (b : bool) : Z := if b then 1 else 0.

(** [detail::mask_to_bools]; [bitmask = None] is the null pointer. *)
Definition mask_to_bools (bitmask : option (list bitmask_type)) (offset length : Z)
  : result unpacked :=
  if decide (length = 0) then
    Ok (mk_unpacked (make_fixed_width_column BOOL8 0 []) [])
  else
    match bitmask with
    | None => Throw (logic_error "nullmask is null")
    | Some bits =>
        let indices := seqZ 0 length in
        Ok (mk_unpacked
              (make_fixed_width_column BOOL8 length
                 ((λ index, of_bool (bit_is_set bits (offset + index))) <$> indices))
              ((λ index, offset + index) <$> indices))
    end.

(** ** Tables *)

Abbreviation table_view := (list column).

Definition empty_column : column := mk_column EMPTY 0 [] None 0 0.

Definition num_columns (t : table_view) : Z := Z.of_nat (length t).

(** [table_view::num_rows]: the size of the first column, 0 for a table
    without columns. *)
Definition num_rows (t : table_view) : Z :=
  match t with
  | [] => 0
  | c :: _ => size c
  end.

(** [table.column(i)]. *)
Definition get_column (t : table_view) (i : Z) : column :=
  default empty_column (t !! Z.to_nat i).

(** [column_device_view::element<T>(j)]: the payload at [offset + j]. *)
Definition element (c : column) (j : Z) : Z :=
  default 0 (data c !! Z.to_nat (offset c + j)).

(** [column_device_view::is_valid(j)]: a column without a bitmask has only
    valid rows. *)
Definition is_valid (c : column) (j : Z) : bool :=
  match null_mask c with
  | None => true
  | Some m => bit_is_set m (offset c + j)
  end.

(** [mutable_column_device_view::element<T>(i) = v]. *)
Definition set_element (i v : Z) (c : column) : column :=
  mk_column (type c) (size c) (<[Z.to_nat (offset c + i) := v]> (data c))
            (null_mask c) (null_count c) (offset c).

(** [mutable_column_device_view::set_mask_word(w, word)]. *)
Definition set_mask_word (w : Z) (word : bitmask_type) (c : column) : column :=
  mk_column (type c) (size c) (data c)
            ((λ m, <[Z.to_nat w := word]> m) <$> null_mask c)
            (null_count c) (offset c).

Definition set_null_count (n : Z) (c : column) : column :=
  mk_column (type c) (size c) (data c) (null_mask c) n (offset c).

(** [column_view::has_nulls] and [has_nulls(table_view)]: decided on the
    recorded null counts. *)
Definition col_has_nulls (c : column) : bool := bool_decide (0 < null_count c).
Definition has_nulls (t : table_view) : bool := existsb col_has_nulls t.

(** ** Loops

    [for (size_type k = start; k < bound; k += stride) body(k)] over a
    state; [None] when the fuel runs out before the loop condition fails. *)
Fixpoint for_strided {S : Type} (fuel : nat) (k stride bound : Z)
    (body : Z → S → option S) (s : S) : option S :=
  match fuel with
  | O => None
  | Datatypes.S fuel' =>
      if decide (k < bound) then
        s' ← body k s;
        for_strided fuel' (wrap32 (k + stride)) stride bound body s'
      else Some s
  end.

(** Running a list of threads one after the other. *)
Fixpoint run_all {A S : Type} (f : A → S → option S) (l : list A) (s : S) : option S :=
  match l with
  | [] => Some s
  | a :: l' => s' ← f a s; run_all f l' s'
  end.

(** ** Launch geometry *)

Record dim3 : Type := mk_dim3 { dim_x : Z; dim_y : Z }.

Record thread : Type := mk_thread {
  blockIdx_x : Z;
  blockIdx_y : Z;
  threadIdx_x : Z;
  threadIdx_y : Z
}.

(** All threads of a launch, block after block. *)
Definition grid_threads (gridDim blockDim : dim3) : list thread :=
  bx ← seqZ 0 (dim_x gridDim);
  by' ← seqZ 0 (dim_y gridDim);
  ty ← seqZ 0 (dim_y blockDim);
  tx ← seqZ 0 (dim_x blockDim);
  [mk_thread bx by' tx ty].

(** The first lane of every warp.  With [blockDim.x = WARP_SIZE] a warp is
    the row of threads of a block that share [threadIdx.y]; its lane [l]
    is the thread with [threadIdx.x = l]. *)
Definition grid_warps (gridDim blockDim : dim3) : list thread :=
  bx ← seqZ 0 (dim_x gridDim);
  by' ← seqZ 0 (dim_y gridDim);
  ty ← seqZ 0 (dim_y blockDim);
  [mk_thread bx by' 0 ty].

(** ** [gpu_transpose] *)

(** [output.column(j).element<T>(i) = v]. *)
Definition write_element (j i v : Z) (output : table_view) : table_view :=
  alter (set_element i v) (Z.to_nat j) output.

(** One thread of [gpu_transpose]. *)
Definition gpu_transpose (fuel : nat) (gridDim blockDim : dim3) (input : table_view)
    (t : thread) (output : table_view) : option table_view :=
  let x := blockIdx_x t * dim_x blockDim + threadIdx_x t in
  let y := blockIdx_y t * dim_y blockDim + threadIdx_y t in
  let stride_x := dim_x blockDim * dim_x gridDim in
  let stride_y := dim_y blockDim * dim_y gridDim in
  for_strided fuel x stride_x (num_columns input) (λ i out,
    for_strided fuel y stride_y (num_rows input) (λ j out',
      Some (write_element j i (element (get_column input i) j) out')) out) output.

(** ** [gpu_transpose_valids] *)

Definition lanes : list Z := seqZ 0 WARP_SIZE.

(** [__ballot_sync(mask, pred)]: bit [l] of the result is set when lane
    [l] belongs to [mask] and its predicate holds.  The predicate of a lane
    outside [mask] is not evaluated. *)
Definition ballot_sync (mask : Z) (pred : Z → bool) : Z :=
  foldr (λ lane acc,
           if Z.testbit mask lane && pred lane then Z.lor (Z.shiftl 1 lane) acc else acc)
        0 lanes.

(** [__popc] of a 32-bit word. *)
Definition popc (word : Z) : Z :=
  Z.of_nat (length (filter (λ lane, Z.testbit word lane = true) lanes)).

(** Output columns and the device array of null counts. *)
Record valids_state : Type := mk_valids_state {
  vs_output : table_view;
  vs_null_count : list Z
}.

(** [atomicAdd(null_count + j, n)]. *)
Definition atomicAdd (j n : Z) (counts : list Z) : list Z :=
  alter (λ old, old + n) (Z.to_nat j) counts.

(** The body of the row loop, as executed by a warp whose lane 0 holds
    column index [i] (lane [l] holds [i + l]). *)
Definition valids_body (input : table_view) (t : thread) (i active_threads j : Z)
    (st : valids_state) : valids_state :=
  let result := ballot_sync active_threads
                  (λ lane, is_valid (get_column input (i + lane)) j) in
  if decide (0 = threadIdx_x t mod WARP_SIZE) then
    mk_valids_state
      (alter (set_mask_word (word_index i) result) (Z.to_nat j) (vs_output st))
      (atomicAdd j (popc active_threads - popc result) (vs_null_count st))
  else st.

(** The [while (i < input.num_columns())] loop of a warp.  Lane 0 has the
    smallest column index of its warp, so the warp leaves the loop when
    lane 0 does; the lanes that left earlier are those cleared from
    [active_threads]. *)
Fixpoint valids_while (fuel fuel_rows : nat) (input : table_view) (t : thread)
    (y stride_x stride_y i active_threads : Z) (st : valids_state) : option valids_state :=
  match fuel with
  | O => None
  | Datatypes.S fuel' =>
      if decide (i < num_columns input) then
        st' ← for_strided fuel_rows y stride_y (num_rows input)
                (λ j s, Some (valids_body input t i active_threads j s)) st;
        let i' := wrap32 (i + stride_x) in
        let active' := ballot_sync active_threads
                         (λ lane, bool_decide (i' + lane < num_columns input)) in
        valids_while fuel' fuel_rows input t y stride_x stride_y i' active' st'
      else Some st
  end.

(** One warp of [gpu_transpose_valids], given by its first lane [t]. *)
Definition gpu_transpose_valids (fuel : nat) (gridDim blockDim : dim3) (input : table_view)
    (t : thread) (st : valids_state) : option valids_state :=
  let x := blockIdx_x t * dim_x blockDim + threadIdx_x t in
  let y := blockIdx_y t * dim_y blockDim + threadIdx_y t in
  let stride_x := dim_x blockDim * dim_x gridDim in
  let stride_y := dim_y blockDim * dim_y gridDim in
  let i := x in
  let active_threads := ballot_sync 4294967295
                          (λ lane, bool_decide (i + lane < num_columns input)) in
  valids_while fuel fuel input t y stride_x stride_y i active_threads st.

(** ** [launch_kernel] *)

(** [util::div_rounding_up_safe] on non-negative operands
    (utilities/integer_utils.hpp is not part of the sources). *)
Definition div_rounding_up_safe (dividend divisor : Z) : Z :=
  dividend / divisor + (if decide (dividend mod divisor = 0) then 0 else 1).

(** What the controlling thread asks of the device, in program order. *)
Inductive event : Type :=
| Allocate (output_column : Z)
| Launch_gpu_transpose (gridDim blockDim : dim3)
| Launch_gpu_transpose_valids (gridDim blockDim : dim3)
| Copy_null_counts
| Synchronize.

Definition dimBlock : dim3 := mk_dim3 WARP_SIZE WARP_SIZE.

Definition dimGrid (input : table_view) : dim3 :=
  mk_dim3 (Z.min (div_rounding_up_safe (num_columns input) WARP_SIZE) MAX_GRID_SIZE)
          (Z.min (div_rounding_up_safe (num_rows input) WARP_SIZE) MAX_GRID_SIZE).

Definition launch_events (input : table_view) (null_counts : list Z) : list event :=
  Launch_gpu_transpose (dimGrid input) dimBlock ::
  match null_counts with
  | [] => []
  | _ => [Launch_gpu_transpose_valids (dimGrid input) dimBlock; Copy_null_counts; Synchronize]
  end.

(** [launch_kernel::operator()]: the value kernel, and the validity kernel
    when [null_counts] is not empty; returns the output view and the null
    counts copied back to the host. *)
Definition launch_kernel (fuel : nat) (input output : table_view) (null_counts : list Z)
  : option (table_view * list Z) :=
  out ← run_all (gpu_transpose fuel (dimGrid input) dimBlock input)
                (grid_threads (dimGrid input) dimBlock) output;
  match null_counts with
  | [] => Some (out, null_counts)
  | _ =>
      let d_null_counts := replicate (length null_counts) 0 in
      st ← run_all (gpu_transpose_valids fuel (dimGrid input) dimBlock input)
                   (grid_warps (dimGrid input) dimBlock)
                   (mk_valids_state out d_null_counts);
      Some (vs_output st, vs_null_count st)
  end.

(** ** [detail::transpose] *)

Inductive mask_allocation_policy : Type := NEVER | RETAIN | ALWAYS.

Definition num_bitmask_words (n : Z) : Z := div_rounding_up_safe n 32.

(** Modelled from the spec: [experimental::detail::allocate_like]
    (cudf/detail/copy.hpp is not part of the sources): a new column of the
    type of [like] with [sz] rows and offset 0, with a bitmask under
    [ALWAYS], without one under [NEVER], and as [like] has it under
    [RETAIN].  The new memory is not initialised: [uninit k] is what slot
    [k] of the allocation happens to hold. *)
Definition allocate_like (uninit : Z → Z) (like : column) (sz : Z)
    (policy : mask_allocation_policy) : column :=
  let with_mask := match policy with
                   | NEVER => false
                   | ALWAYS => true
                   | RETAIN => bool_decide (is_Some (null_mask like))
                   end in
  mk_column (type like) sz (uninit <$> seqZ 0 sz)
            (if with_mask
             then Some ((λ w, uninit (sz + w)) <$> seqZ 0 (num_bitmask_words sz))
             else None)
            0 0.

(** [output->get_column(i).set_null_count(null_counts[i])] for every output
    column. *)
Definition set_null_counts (null_counts : list Z) (output : table_view) : table_view :=
  imap (λ i c, set_null_count (default 0 (null_counts !! i)) c) output.

(** [detail::transpose].  [uninit c k] is the initial content of slot [k]
    of the memory allocated for output column [c].  The result comes with
    the device requests made before returning or throwing. *)
Definition transpose (fuel : nat) (uninit : Z → Z → Z) (input : table_view)
  : list event * result table_view :=
  let input_ncols := num_columns input in
  let input_nrows := num_rows input in
  if decide (input_ncols = 0 ∨ input_nrows = 0) then ([], Ok [])
  else
    let first := get_column input 0 in
    let dtype := type first in
    if negb (forallb (λ col, bool_decide (dtype = type col)) input) then
      ([], Throw (logic_error "Column type mismatch"))
    else if negb (is_fixed_width dtype) then
      ([], Throw (logic_error "Invalid, non-fixed-width type."))
    else
      let has_null := has_nulls input in
      let allocation_policy := if has_null then ALWAYS else NEVER in
      let output_ncols := input_nrows in
      let output_nrows := input_ncols in
      let null_counts := replicate (Z.to_nat (if has_null then output_ncols else 0)) 0 in
      let out_columns :=
        (λ c, allocate_like (uninit c) first output_nrows allocation_policy)
          <$> seqZ 0 output_ncols in
      let events := (Allocate <$> seqZ 0 output_ncols) ++ launch_events input null_counts in
      match launch_kernel fuel input out_columns null_counts with
      | None => (events, OutOfFuel)
      | Some (output, null_counts') =>
          (events, Ok (if has_null then set_null_counts null_counts' output else output))
      end.

(** ** Specification-level notions *)

(** The values taken by the loop variable of
    [for (k = start; k < bound; k += stride)], computed without
    wrap-around; [fuel] bounds the number of iterations listed. *)
Fixpoint iters (fuel : nat) (k stride bound : Z) : list Z :=
  match fuel with
  | O => []
  | Datatypes.S fuel' =>
      if decide (k < bound) then k :: iters fuel' (k + stride) stride bound else []
  end.

Definition strided_range (k stride bound : Z) : list Z :=
  iters (Z.to_nat (bound - k)) k stride bound.

(** The index pairs visited by two nested strided loops. *)
Definition cells (x y stride_x stride_y ncols nrows : Z) : list (Z * Z) :=
  i ← strided_range x stride_x ncols;
  j ← strided_range y stride_y nrows;
  [(i, j)].

Definition thread_x (blockDim : dim3) (t : thread) : Z :=
  blockIdx_x t * dim_x blockDim + threadIdx_x t.
Definition thread_y (blockDim : dim3) (t : thread) : Z :=
  blockIdx_y t * dim_y blockDim + threadIdx_y t.

(** The pairs [(i, j)] handled by a thread (or by the first lane of a
    warp). *)
Definition thread_cells (gridDim blockDim : dim3) (input : table_view) (t : thread)
  : list (Z * Z) :=
  cells (thread_x blockDim t) (thread_y blockDim t)
        (dim_x blockDim * dim_x gridDim) (dim_y blockDim * dim_y gridDim)
        (num_columns input) (num_rows input).

(** One store of the value kernel. *)
Definition store_cell (input : table_view) (output : table_view) (c : Z * Z) : table_view :=
  write_element c.2 c.1 (element (get_column input c.1) c.2) output.

(** The stores of a launch of [gpu_transpose], in the order of the model. *)
Definition value_stores (input : table_view) : list (Z * Z) :=
  grid_threads (dimGrid input) dimBlock ≫= thread_cells (dimGrid input) dimBlock input.

(** The lanes of the warp at column [i] that stand for a column of the
    input. *)
Definition full_active (input : table_view) (i : Z) : Z :=
  ballot_sync 4294967295 (λ lane, bool_decide (i + lane < num_columns input)).

(** Number of null elements in row [j] of the input. *)
Definition row_nulls (input : table_view) (j : Z) : Z :=
  Z.of_nat (length (filter (λ i, is_valid (get_column input i) j = false)
                           (seqZ 0 (num_columns input)))).

(** Number of null elements of the input among the columns
    [i, i + 32) at row [j]. *)
Definition band_nulls (input : table_view) (i j : Z) : Z :=
  Z.of_nat (length (filter (λ lane, i + lane < num_columns input ∧
                                 is_valid (get_column input (i + lane)) j = false)
                           lanes)).

Definition sumZ (l : list Z) : Z := foldr Z.add 0 l.

(** Total number of null elements of a table. *)
Definition table_nulls (input : table_view) : Z :=
  sumZ (row_nulls input <$> seqZ 0 (num_rows input)).

(** Bit [i] of the validity mask of a column, as stored: [None] without a
    mask. *)
Definition mask_bit (c : column) (i : Z) : option bool :=
  (λ m, bit_is_set m (offset c + i)) <$> null_mask c.

(** Table dimensions for which the loop increments of the kernels stay
    within [size_type]. *)
Definition fits_size_type (input : table_view) : Prop :=
  num_columns input + WARP_SIZE * MAX_GRID_SIZE ≤ INT_MAX ∧
  num_rows input + WARP_SIZE * MAX_GRID_SIZE ≤ INT_MAX.

(** A table accepted by [transpose]: not empty, one fixed-width element
    type, representable dimensions. *)
Record valid_input (input : table_view) : Prop := mk_valid_input {
  vi_ncols : 0 < num_columns input;
  vi_nrows : 0 < num_rows input;
  vi_types : forallb (λ col, bool_decide (type (get_column input 0) = type col)) input = true;
  vi_fixed : is_fixed_width (type (get_column input 0)) = true;
  vi_fits : fits_size_type input
}.

Definition enough_fuel (fuel : nat) (input : table_view) : Prop :=
  Z.max 0 (num_columns input) < Z.of_nat fuel ∧ Z.max 0 (num_rows input) < Z.of_nat fuel.

(** The mask word voted by the warp at column [i] for row [j]. *)
Definition band_word (input : table_view) (i j : Z) : Z :=
  ballot_sync (full_active input i) (λ lane, is_valid (get_column input (i + lane)) j).

(** The effect of the first lane of a warp for the pair [c = (i, j)]: one
    mask word stored, one null count added. *)
Definition valids_store (input : table_view) (st : valids_state) (c : Z * Z) : valids_state :=
  mk_valids_state
    (alter (set_mask_word (word_index c.1) (band_word input c.1 c.2)) (Z.to_nat c.2)
           (vs_output st))
    (atomicAdd c.2 (band_nulls input c.1 c.2) (vs_null_count st)).

(** The pairs handled by the warps of a launch of [gpu_transpose_valids],
    in the order of the model. *)
Definition valids_stores (input : table_view) : list (Z * Z) :=
  grid_warps (dimGrid input) dimBlock ≫= thread_cells (dimGrid input) dimBlock input.

Arguments ballot_sync : simpl never.
Arguments popc : simpl never.
Arguments full_active : simpl never.
Arguments band_word : simpl never.
Arguments band_nulls : simpl never.
Arguments row_nulls : simpl never.
Arguments strided_range : simpl never.
Arguments wrap32 : simpl never.
Arguments grid_threads : simpl never.
Arguments grid_warps : simpl never.

(** Word [k] of the validity mask of output column [j]. *)
Definition mask_word (output : table_view) (j k : Z) : Z :=
  read_word (default [] (null_mask (get_column output j))) k.

(** One store of a mask word, and one addition to a null count. *)
Definition store_word (input : table_view) (output : table_view) (c : Z * Z) : table_view :=
  alter (set_mask_word (word_index c.1) (band_word input c.1 c.2)) (Z.to_nat c.2) output.

Definition add_nulls (input : table_view) (counts : list Z) (c : Z * Z) : list Z :=
  atomicAdd c.2 (band_nulls input c.1 c.2) counts.

(** The first columns of the bands of 32 columns of a table of [ncols]
    columns. *)
Definition bands (ncols : Z) : list Z :=
  filter (λ i, i mod WARP_SIZE = 0) (seqZ 0 ncols).

(** The columns of the band that starts at column [i]. *)
Definition band (ncols i : Z) : list Z :=
  filter (λ c, c < ncols) ((λ lane, i + lane) <$> lanes).

(** Null count slot [j]. *)
Definition count_at (counts : list Z) (j : Z) : Z := default 0 (counts !! Z.to_nat j).

(** The output columns as allocated by [transpose], before the kernels
    run. *)
Definition allocated (uninit : Z → Z → Z) (input : table_view) : table_view :=
  (λ c, allocate_like (uninit c) (get_column input 0) (num_columns input)
          (if has_nulls input then ALWAYS else NEVER))
    <$> seqZ 0 (num_rows input).

(** The table [transpose] returns for a valid input, as the sequence of
    stores of its kernels. *)
Definition transposed (uninit : Z → Z → Z) (input : table_view) : table_view :=
  let values := foldl (store_cell input) (allocated uninit input) (value_stores input) in
  if has_nulls input then
    set_null_counts
      (foldl (add_nulls input) (replicate (Z.to_nat (num_rows input)) 0)
             (valids_stores input))
      (foldl (store_word input) values (valids_stores input))
  else values.

(** The device requests of a successful [transpose]. *)
Definition transpose_events (input : table_view) : list event :=
  (Allocate <$> seqZ 0 (num_rows input)) ++
  launch_events input
    (replicate (Z.to_nat (if has_nulls input then num_rows input else 0)) 0).

(** Element [i] of output column [j] exists. *)
Definition slot_ok (output : table_view) (j i : Z) : Prop :=
  ∃ c, output !! Z.to_nat j = Some c ∧ 0 ≤ offset c ∧
       (Z.to_nat (offset c + i) < length (data c))%nat.

(** Word [k] of the mask of output column [j] exists. *)
Definition word_ok (output : table_view) (j k : Z) : Prop :=
  ∃ c m, output !! Z.to_nat j = Some c ∧ null_mask c = Some m ∧
         (Z.to_nat k < length m)%nat.

(** The table of the examples: two columns of three rows, row 1 of column
    0 null. *)
Definition example_table : table_view :=
  [mk_column INT32 3 [1; 2; 3] (Some [5]) 1 0;
   mk_column INT32 3 [4; 5; 6] None 0 0].

Definition example_uninit : Z → Z → Z := λ c k, 170 + c + k.

(** A table of one [INT32] column without rows. *)
Definition zero_row_table : table_view := [mk_column INT32 0 [] None 0 0].

(** Two columns of different types, and one column of strings. *)
Definition mixed_table : table_view :=
  [mk_column INT32 2 [1; 2] None 0 0; mk_column FLOAT64 2 [3; 4] None 0 0].

Definition string_table : table_view := [mk_column STRING 2 [0; 0] None 0 0].

(** Strictly positive strides, small enough for [size_type]. *)
Record geometry (gridDim blockDim : dim3) (input : table_view) : Prop := mk_geometry {
  geo_bx : 0 < dim_x blockDim;
  geo_by : 0 < dim_y blockDim;
  geo_gx : 0 < dim_x gridDim;
  geo_gy : 0 < dim_y gridDim;
  geo_cols : num_columns input + dim_x blockDim * dim_x gridDim ≤ INT_MAX + 1;
  geo_rows : num_rows input + dim_y blockDim * dim_y gridDim ≤ INT_MAX + 1
}.

(** An output table with room for the transposition of [input]: one column
    per input row, each with a payload of at least one element per input
    column. *)
Definition output_ready (input output : table_view) : Prop :=
  length output = Z.to_nat (num_rows input) ∧
  Forall (λ c, 0 ≤ offset c ∧
               (Z.to_nat (offset c + num_columns input) ≤ length (data c))%nat) output.

(** An output table whose columns all carry a mask with a word for every
    band of input columns. *)
Definition masks_ready (input output : table_view) : Prop :=
  length output = Z.to_nat (num_rows input) ∧
  Forall (λ c, ∃ m, null_mask c = Some m ∧
                    num_bitmask_words (num_columns input) ≤ Z.of_nat (length m)) output.

(** A launch smaller than the table: one block of 2 x 2 threads. *)
Definition small_grid : dim3 := mk_dim3 1 1.
Definition small_block : dim3 := mk_dim3 2 2.

(** A launch of one block column and one block row of warps. *)
Definition one_block : dim3 := mk_dim3 1 1.

(** Number of rows of a column that its own mask marks as null. *)
Definition column_nulls (c : column) : Z :=
  Z.of_nat (length (filter (λ i, is_valid c i = false) (seqZ 0 (size c)))).

(** The payload of the column returned by [mask_to_bools], empty on
    failure. *)
Definition bools_of (res : result unpacked) : list Z :=
  match res with
  | Ok r => data (out_col r)
  | _ => []
  end.

(** * Properties *)

(** ** Strided loops *)

Lemma wrap32_small z : -2147483648 ≤ z ≤ INT_MAX → wrap32 z = z.
Proof.
  unfold wrap32, INT_MAX. intros H.
  rewrite Z.mod_small by lia. lia.
Qed.

Lemma iters_lower fuel k stride bound z :
  0 < stride → z ∈ iters fuel k stride bound → k ≤ z < bound.
Proof.
  intros Hs. revert k. induction fuel as [|fuel IH]; intros k; simpl.
  - by intros ?%elem_of_nil.
  - case_decide; [|by intros ?%elem_of_nil].
    intros [->|Hin]%elem_of_cons; [lia|]. apply IH in Hin. lia.
Qed.

Lemma iters_fuel f1 f2 k stride bound :
  0 < stride → bound - k ≤ Z.of_nat f1 → bound - k ≤ Z.of_nat f2 →
  iters f1 k stride bound = iters f2 k stride bound.
Proof.
  intros Hs. revert f2 k. induction f1 as [|f1 IH]; intros [|f2] k H1 H2; simpl;
    try done; case_decide; try done; try lia.
  f_equal. apply IH; lia.
Qed.

Lemma strided_range_unfold k stride bound :
  0 < stride →
  strided_range k stride bound =
    if decide (k < bound) then k :: strided_range (k + stride) stride bound else [].
Proof.
  intros Hs. unfold strided_range. case_decide as Hk.
  - destruct (Z.to_nat (bound - k)) as [|n] eqn:E; [lia|]. simpl.
    rewrite decide_True by done. f_equal. apply iters_fuel; lia.
  - destruct (Z.to_nat (bound - k)); simpl; [done|]. by rewrite decide_False.
Qed.

Lemma NoDup_iters fuel k stride bound : 0 < stride → NoDup (iters fuel k stride bound).
Proof.
  intros Hs. revert k. induction fuel as [|fuel IH]; intros k; simpl; [constructor|].
  case_decide; [|constructor]. constructor; [|apply IH].
  intros Hin%iters_lower; lia.
Qed.

Lemma elem_of_iters fuel k stride bound z :
  0 < stride → bound - k ≤ Z.of_nat fuel →
  z ∈ iters fuel k stride bound ↔ k ≤ z < bound ∧ (z - k) mod stride = 0.
Proof.
  intros Hs. revert k. induction fuel as [|fuel IH]; intros k Hf; simpl.
  - split; [by intros ?%elem_of_nil|lia].
  - case_decide as Hk.
    + rewrite elem_of_cons, IH by lia. split.
      * intros [->|[Hr Hm]].
        -- split; [lia|]. by rewrite Z.sub_diag.
        -- split; [lia|].
           replace (z - k) with (z - (k + stride) + 1 * stride) by lia.
           by rewrite Z.mod_add by lia.
      * intros [Hr Hm]. destruct (decide (z = k)) as [|Hne]; [by left|right].
        assert (stride ≤ z - k).
        { apply Z.mod_divide in Hm as [q Hq]; [|lia].
          assert (0 < q) by nia. nia. }
        split; [lia|].
        replace (z - (k + stride)) with (z - k + (-1) * stride) by lia.
        by rewrite Z.mod_add by lia.
    + split; [by intros ?%elem_of_nil|lia].
Qed.

Lemma elem_of_strided_range k stride bound z :
  0 < stride →
  z ∈ strided_range k stride bound ↔ k ≤ z < bound ∧ (z - k) mod stride = 0.
Proof. intros Hs. unfold strided_range. apply elem_of_iters; lia. Qed.

Lemma NoDup_strided_range k stride bound : 0 < stride → NoDup (strided_range k stride bound).
Proof. apply NoDup_iters. Qed.

Lemma for_strided_run {S : Type} fuel k stride bound (body : Z → S → option S) s :
  0 ≤ k → 0 < stride → bound + stride ≤ INT_MAX + 1 →
  Z.max 0 (bound - k) < Z.of_nat fuel →
  for_strided fuel k stride bound body s = run_all body (strided_range k stride bound) s.
Proof.
  intros Hk Hs Hb. revert k s Hk. induction fuel as [|fuel IH]; intros k s Hk Hf; [lia|].
  rewrite strided_range_unfold by done. simpl. case_decide; [|done]. simpl.
  destruct (body k s) as [s'|]; simpl; [|done].
  rewrite wrap32_small by (unfold INT_MAX in *; lia). apply IH; lia.
Qed.

(** ** Sequences of threads *)

Lemma run_all_pure {A S : Type} (g : S → A → S) (l : list A) (s : S) :
  run_all (λ a s, Some (g s a)) l s = Some (foldl g s l).
Proof. revert s. induction l as [|a l IH]; intros s; simpl; [done|apply IH]. Qed.

Lemma run_all_flatten {A B S : Type} (f : A → S → option S) (g : S → B → S)
    (h : A → list B) (l : list A) (s : S) :
  (∀ a s, a ∈ l → f a s = Some (foldl g s (h a))) →
  run_all f l s = Some (foldl g s (l ≫= h)).
Proof.
  revert s. induction l as [|a l IH]; intros s Hf; simpl; [done|].
  rewrite Hf by left. simpl. rewrite foldl_app. apply IH.
  intros. apply Hf. by right.
Qed.

(** ** Launch geometry *)

Lemma elem_of_grid_threads gridDim blockDim t :
  t ∈ grid_threads gridDim blockDim ↔
    (0 ≤ blockIdx_x t < dim_x gridDim ∧ 0 ≤ blockIdx_y t < dim_y gridDim) ∧
    (0 ≤ threadIdx_x t < dim_x blockDim ∧ 0 ≤ threadIdx_y t < dim_y blockDim).
Proof.
  unfold grid_threads. destruct t as [bx by' tx ty]. simpl.
  repeat setoid_rewrite list_elem_of_bind.
  setoid_rewrite elem_of_seqZ. setoid_rewrite list_elem_of_singleton.
  split.
  - intros (a & (b & (c & (d & Heq & ?) & ?) & ?) & ?). simplify_eq. lia.
  - intros ?. exists bx. split; [|lia]. exists by'. split; [|lia].
    exists ty. split; [|lia]. exists tx. split; [done|lia].
Qed.

Lemma elem_of_grid_warps gridDim blockDim t :
  t ∈ grid_warps gridDim blockDim ↔
    (0 ≤ blockIdx_x t < dim_x gridDim ∧ 0 ≤ blockIdx_y t < dim_y gridDim) ∧
    (threadIdx_x t = 0 ∧ 0 ≤ threadIdx_y t < dim_y blockDim).
Proof.
  unfold grid_warps. destruct t as [bx by' tx ty]. simpl.
  repeat setoid_rewrite list_elem_of_bind.
  setoid_rewrite elem_of_seqZ. setoid_rewrite list_elem_of_singleton.
  split.
  - intros (a & (b & (c & Heq & ?) & ?) & ?). simplify_eq. lia.
  - intros (? & -> & ?). exists bx. split; [|lia]. exists by'. split; [|lia].
    exists ty. split; [done|lia].
Qed.

Lemma thread_x_range gridDim blockDim t :
  0 < dim_x blockDim →
  0 ≤ blockIdx_x t < dim_x gridDim → 0 ≤ threadIdx_x t < dim_x blockDim →
  0 ≤ thread_x blockDim t < dim_x blockDim * dim_x gridDim.
Proof. unfold thread_x. nia. Qed.

Lemma thread_y_range gridDim blockDim t :
  0 < dim_y blockDim →
  0 ≤ blockIdx_y t < dim_y gridDim → 0 ≤ threadIdx_y t < dim_y blockDim →
  0 ≤ thread_y blockDim t < dim_y blockDim * dim_y gridDim.
Proof. unfold thread_y. nia. Qed.

(** ** The value kernel as a sequence of stores *)

Lemma gpu_transpose_run fuel gridDim blockDim input t output :
  geometry gridDim blockDim input → enough_fuel fuel input →
  t ∈ grid_threads gridDim blockDim →
  gpu_transpose fuel gridDim blockDim input t output =
    Some (foldl (store_cell input) output (thread_cells gridDim blockDim input t)).
Proof.
  intros [g1 g2 g3 g4 g5 g6] [Hfc Hfr] [[Hbx Hby] [Htx Hty]]%elem_of_grid_threads.
  pose proof (thread_x_range gridDim blockDim t g1 Hbx Htx) as Hx.
  pose proof (thread_y_range gridDim blockDim t g2 Hby Hty) as Hy.
  assert (0 < dim_x blockDim * dim_x gridDim) by nia.
  assert (0 < dim_y blockDim * dim_y gridDim) by nia.
  unfold gpu_transpose, thread_cells, cells.
  fold (thread_x blockDim t) (thread_y blockDim t).
  rewrite for_strided_run by lia.
  apply run_all_flatten. intros i s _.
  rewrite for_strided_run by lia.
  rewrite run_all_pure with (g := λ s j, store_cell input s (i, j)).
  f_equal. generalize (strided_range (thread_y blockDim t)
                         (dim_y blockDim * dim_y gridDim) (num_rows input)).
  intros l. revert s. induction l as [|j l IH]; intros s; simpl; [done|apply IH].
Qed.

Lemma value_kernel_run fuel gridDim blockDim input output :
  geometry gridDim blockDim input → enough_fuel fuel input →
  run_all (gpu_transpose fuel gridDim blockDim input) (grid_threads gridDim blockDim) output =
    Some (foldl (store_cell input) output
            (grid_threads gridDim blockDim ≫= thread_cells gridDim blockDim input)).
Proof.
  intros Hg Hf. apply run_all_flatten. intros t s Ht. by apply gpu_transpose_run.
Qed.

(** ** Which thread handles which cell *)

Lemma residue_unique s i x1 x2 :
  0 ≤ x1 < s → 0 ≤ x2 < s → (i - x1) mod s = 0 → (i - x2) mod s = 0 → x1 = x2.
Proof.
  intros H1 H2 [q1 Hq1]%Z.mod_divide [q2 Hq2]%Z.mod_divide; [|lia..].
  transitivity (i mod s).
  - apply (Z.mod_unique_pos _ _ q1); lia.
  - symmetry. apply (Z.mod_unique_pos _ _ q2); lia.
Qed.

Lemma block_decompose_unique b q1 r1 q2 r2 :
  0 ≤ r1 < b → 0 ≤ r2 < b → q1 * b + r1 = q2 * b + r2 → q1 = q2 ∧ r1 = r2.
Proof.
  intros H1 H2 Heq.
  assert (r1 = r2).
  { transitivity ((q1 * b + r1) mod b).
    - apply (Z.mod_unique_pos _ _ q1); lia.
    - rewrite Heq. symmetry. apply (Z.mod_unique_pos _ _ q2); lia. }
  split; [nia|done].
Qed.

Lemma elem_of_cells x y sx sy ncols nrows i j :
  0 < sx → 0 < sy →
  (i, j) ∈ cells x y sx sy ncols nrows ↔
    (x ≤ i < ncols ∧ (i - x) mod sx = 0) ∧ (y ≤ j < nrows ∧ (j - y) mod sy = 0).
Proof.
  intros Hx Hy. unfold cells.
  repeat setoid_rewrite list_elem_of_bind.
  setoid_rewrite list_elem_of_singleton.
  setoid_rewrite elem_of_strided_range; [|done..].
  split.
  - intros (i' & (j' & Heq & ?) & ?). by simplify_eq.
  - intros [? ?]. exists i. split; [|done]. by exists j.
Qed.

Lemma NoDup_cells x y sx sy ncols nrows :
  0 < sx → 0 < sy → NoDup (cells x y sx sy ncols nrows).
Proof.
  intros Hx Hy. unfold cells. apply NoDup_bind.
  - intros i1 i2 [i j] _ _ (j1 & ->%list_elem_of_singleton & _)%list_elem_of_bind
      (j2 & Heq%list_elem_of_singleton & _)%list_elem_of_bind. by simplify_eq.
  - intros i _. apply NoDup_bind.
    + intros j1 j2 c _ _ ->%list_elem_of_singleton Heq%list_elem_of_singleton.
      by simplify_eq.
    + intros. apply NoDup_singleton.
    + by apply NoDup_strided_range.
  - by apply NoDup_strided_range.
Qed.

Lemma NoDup_grid_threads gridDim blockDim : NoDup (grid_threads gridDim blockDim).
Proof.
  unfold grid_threads.
  repeat (apply NoDup_bind;
          [ intros ?? [] _ _ ; rewrite !list_elem_of_bind;
            intros (? & Ha & _) (? & Hb & _);
            repeat (apply list_elem_of_bind in Ha as (? & Ha & _));
            repeat (apply list_elem_of_bind in Hb as (? & Hb & _));
            apply list_elem_of_singleton in Ha, Hb; by simplify_eq
          | intros ? _ | apply NoDup_seqZ ]).
  apply NoDup_bind.
  - intros ?? [] _ _ Ha%list_elem_of_singleton Hb%list_elem_of_singleton. by simplify_eq.
  - intros. apply NoDup_singleton.
  - apply NoDup_seqZ.
Qed.

Lemma NoDup_grid_warps gridDim blockDim : NoDup (grid_warps gridDim blockDim).
Proof.
  unfold grid_warps.
  repeat (apply NoDup_bind;
          [ intros ?? [] _ _ ; rewrite !list_elem_of_bind;
            intros (? & Ha & _) (? & Hb & _);
            repeat (apply list_elem_of_bind in Ha as (? & Ha & _));
            repeat (apply list_elem_of_bind in Hb as (? & Hb & _));
            apply list_elem_of_singleton in Ha, Hb; by simplify_eq
          | intros ? _ | apply NoDup_seqZ ]).
  apply NoDup_bind.
  - intros ?? [] _ _ Ha%list_elem_of_singleton Hb%list_elem_of_singleton. by simplify_eq.
  - intros. apply NoDup_singleton.
  - apply NoDup_seqZ.
Qed.

Lemma thread_cells_disjoint gridDim blockDim input t1 t2 c :
  geometry gridDim blockDim input →
  t1 ∈ grid_threads gridDim blockDim → t2 ∈ grid_threads gridDim blockDim →
  c ∈ thread_cells gridDim blockDim input t1 →
  c ∈ thread_cells gridDim blockDim input t2 → t1 = t2.
Proof.
  intros [g1 g2 g3 g4 _ _] [[Hbx1 Hby1] [Htx1 Hty1]]%elem_of_grid_threads
    [[Hbx2 Hby2] [Htx2 Hty2]]%elem_of_grid_threads.
  destruct c as [i j]. unfold thread_cells.
  assert (0 < dim_x blockDim * dim_x gridDim) by nia.
  assert (0 < dim_y blockDim * dim_y gridDim) by nia.
  rewrite !elem_of_cells by done.
  intros [[_ Hx1] [_ Hy1]] [[_ Hx2] [_ Hy2]].
  pose proof (thread_x_range gridDim blockDim t1 g1 Hbx1 Htx1).
  pose proof (thread_x_range gridDim blockDim t2 g1 Hbx2 Htx2).
  pose proof (thread_y_range gridDim blockDim t1 g2 Hby1 Hty1).
  pose proof (thread_y_range gridDim blockDim t2 g2 Hby2 Hty2).
  assert (thread_x blockDim t1 = thread_x blockDim t2) as Hx by eauto using residue_unique.
  assert (thread_y blockDim t1 = thread_y blockDim t2) as Hy by eauto using residue_unique.
  unfold thread_x, thread_y in Hx, Hy.
  apply block_decompose_unique in Hx as [? ?]; [|lia..].
  apply block_decompose_unique in Hy as [? ?]; [|lia..].
  destruct t1, t2; simpl in *; by subst.
Qed.

Lemma NoDup_stores gridDim blockDim input (l : list thread) :
  geometry gridDim blockDim input → NoDup l →
  (∀ t, t ∈ l → t ∈ grid_threads gridDim blockDim) →
  NoDup (l ≫= thread_cells gridDim blockDim input).
Proof.
  intros Hg Hl Hsub. pose proof Hg as [g1 g2 g3 g4 _ _]. apply NoDup_bind; [|  |done].
  - intros t1 t2 c H1 H2. apply thread_cells_disjoint; auto.
  - intros t _. apply NoDup_cells; nia.
Qed.

(** The thread of the grid whose strided loops reach column [i] and row
    [j]. *)
Lemma owner_thread gridDim blockDim input i j :
  geometry gridDim blockDim input →
  0 ≤ i < num_columns input → 0 ≤ j < num_rows input →
  let t := mk_thread ((i / dim_x blockDim) mod dim_x gridDim)
                     ((j / dim_y blockDim) mod dim_y gridDim)
                     (i mod dim_x blockDim) (j mod dim_y blockDim) in
  t ∈ grid_threads gridDim blockDim ∧ (i, j) ∈ thread_cells gridDim blockDim input t.
Proof.
  intros [g1 g2 g3 g4 _ _] Hi Hj t.
  assert (0 < dim_x blockDim * dim_x gridDim) as Hsx by nia.
  assert (0 < dim_y blockDim * dim_y gridDim) as Hsy by nia.
  assert (thread_x blockDim t = i mod (dim_x blockDim * dim_x gridDim)) as Hx.
  { unfold thread_x, t. simpl. rewrite Z.rem_mul_r by lia. lia. }
  assert (thread_y blockDim t = j mod (dim_y blockDim * dim_y gridDim)) as Hy.
  { unfold thread_y, t. simpl. rewrite Z.rem_mul_r by lia. lia. }
  split.
  - apply elem_of_grid_threads. unfold t. simpl.
    pose proof (Z.mod_pos_bound (i / dim_x blockDim) (dim_x gridDim) g3).
    pose proof (Z.mod_pos_bound (j / dim_y blockDim) (dim_y gridDim) g4).
    pose proof (Z.mod_pos_bound i (dim_x blockDim) g1).
    pose proof (Z.mod_pos_bound j (dim_y blockDim) g2). lia.
  - unfold thread_cells. rewrite elem_of_cells by done. rewrite Hx, Hy.
    pose proof (Z.mod_pos_bound i _ Hsx). pose proof (Z.mod_pos_bound j _ Hsy).
    pose proof (Z.mod_le i _ (proj1 Hi) Hsx). pose proof (Z.mod_le j _ (proj1 Hj) Hsy).
    repeat split; try lia.
    + rewrite Zminus_mod_idemp_r, Z.sub_diag. done.
    + rewrite Zminus_mod_idemp_r, Z.sub_diag. done.
Qed.

Lemma elem_of_stores gridDim blockDim input i j :
  geometry gridDim blockDim input →
  (i, j) ∈ grid_threads gridDim blockDim ≫= thread_cells gridDim blockDim input ↔
    0 ≤ i < num_columns input ∧ 0 ≤ j < num_rows input.
Proof.
  intros Hg. rewrite list_elem_of_bind. split.
  - intros (t & Hc & [[Hbx Hby] [Htx Hty]]%elem_of_grid_threads).
    pose proof Hg as [g1 g2 g3 g4 _ _].
    pose proof (thread_x_range gridDim blockDim t g1 Hbx Htx).
    pose proof (thread_y_range gridDim blockDim t g2 Hby Hty).
    unfold thread_cells in Hc. apply elem_of_cells in Hc; [lia|nia..].
  - intros [Hi Hj]. destruct (owner_thread gridDim blockDim input i j Hg Hi Hj) as [? ?].
    eauto.
Qed.

Lemma elem_of_warp_stores gridDim blockDim input i j :
  geometry gridDim blockDim input →
  (i, j) ∈ grid_warps gridDim blockDim ≫= thread_cells gridDim blockDim input ↔
    (0 ≤ i < num_columns input ∧ i mod dim_x blockDim = 0) ∧ 0 ≤ j < num_rows input.
Proof.
  intros Hg. pose proof Hg as [g1 g2 g3 g4 _ _]. rewrite list_elem_of_bind. split.
  - intros (t & Hc & [[Hbx Hby] [Htx Hty]]%elem_of_grid_warps).
    pose proof (thread_x_range gridDim blockDim t g1 Hbx ltac:(lia)).
    pose proof (thread_y_range gridDim blockDim t g2 Hby Hty).
    unfold thread_cells in Hc. apply elem_of_cells in Hc as [[? Hm] [? _]]; [|nia..].
    repeat split; try lia.
    apply Z.mod_divide in Hm as [q Hq]; [|nia]. unfold thread_x in Hq.
    replace i with ((q * dim_x gridDim + blockIdx_x t) * dim_x blockDim) by lia.
    apply Z.mod_mul. lia.
  - intros [[Hi Hm] Hj].
    destruct (owner_thread gridDim blockDim input i j Hg Hi Hj) as [Ht ?].
    eexists. split; [done|]. apply elem_of_grid_warps.
    apply elem_of_grid_threads in Ht. simpl in *. lia.
Qed.

Lemma grid_warps_threads gridDim blockDim t :
  0 < dim_x blockDim → t ∈ grid_warps gridDim blockDim → t ∈ grid_threads gridDim blockDim.
Proof. rewrite elem_of_grid_warps, elem_of_grid_threads. lia. Qed.

(** ** Stores into the output payload *)

Lemma slot_ok_store input output c j i :
  slot_ok output j i → slot_ok (store_cell input output c) j i.
Proof.
  intros (col & Hl & Ho & Hlen). unfold store_cell, write_element, slot_ok.
  destruct (decide (Z.to_nat c.2 = Z.to_nat j)) as [Heq|Hne].
  - eexists. rewrite list_lookup_alter, decide_True, Heq, Hl by done. simpl.
    split; [done|]. simpl. by rewrite length_insert.
  - exists col. by rewrite list_lookup_alter_ne.
Qed.

Lemma element_store input output c j i :
  0 ≤ i → 0 ≤ j → 0 ≤ c.1 → 0 ≤ c.2 → slot_ok output j i →
  element (get_column (store_cell input output c) j) i =
    if decide (c = (i, j)) then element (get_column input i) j
    else element (get_column output j) i.
Proof.
  intros Hi Hj Hc1 Hc2 (col & Hl & Ho & Hlen). destruct c as [i' j']. simpl in *.
  unfold store_cell, write_element, get_column at 1 3. simpl.
  destruct (decide (Z.to_nat j' = Z.to_nat j)) as [Heq|Hne].
  - assert (j' = j) as -> by lia. rewrite list_lookup_alter, decide_True, Hl by done. simpl.
    unfold element at 1 3. simpl.
    destruct (decide (i' = i)) as [->|Hne].
    + rewrite decide_True by done. by rewrite list_lookup_insert_eq.
    + rewrite decide_False by congruence.
      rewrite list_lookup_insert_ne by lia.
      unfold element, get_column. by rewrite Hl.
  - rewrite list_lookup_alter_ne by done. rewrite decide_False by congruence. done.
Qed.

Lemma element_stores input (W : list (Z * Z)) output j i :
  0 ≤ i → 0 ≤ j → Forall (λ c, 0 ≤ c.1 ∧ 0 ≤ c.2) W → slot_ok output j i →
  (i, j) ∈ W ∨ element (get_column output j) i = element (get_column input i) j →
  element (get_column (foldl (store_cell input) output W) j) i =
    element (get_column input i) j.
Proof.
  intros Hi Hj HW. revert output. induction HW as [|c W [Hc1 Hc2] HW IH]; intros output Hs Hin.
  - simpl. destruct Hin as [?%elem_of_nil|]; done.
  - simpl. apply IH; [by apply slot_ok_store|].
    rewrite element_store by done. case_decide as Hc; [by right|].
    destruct Hin as [[?|?]%elem_of_cons|?]; [congruence|by left|by right].
Qed.

(** The stores leave alone whatever does not depend on the payload
    contents. *)
Lemma fmap_stores {B : Type} (f : column → B) input (W : list (Z * Z)) output :
  (∀ i v c, f (set_element i v c) = f c) →
  f <$> foldl (store_cell input) output W = f <$> output.
Proof.
  intros Hf. revert output. induction W as [|c W IH]; intros output; simpl; [done|].
  rewrite IH. unfold store_cell, write_element.
  rewrite (list_fmap_alter _ _ id).
  - by apply list_alter_id.
  - apply Forall_forall. intros col _. apply Hf.
Qed.

(** ** Warp votes *)

Lemma ballot_sync_spec mask pred l :
  Z.testbit (ballot_sync mask pred) l =
    bool_decide (0 ≤ l < WARP_SIZE) && (Z.testbit mask l && pred l).
Proof.
  destruct (decide (0 ≤ l)) as [Hl|Hl].
  2:{ rewrite Z.testbit_neg_r by lia. rewrite bool_decide_eq_false_2 by lia. done. }
  unfold ballot_sync, lanes.
  assert (Forall (λ a, 0 ≤ a) (seqZ 0 WARP_SIZE)) as Hpos.
  { apply Forall_forall. intros a Ha%elem_of_seqZ. lia. }
  transitivity (bool_decide (l ∈ seqZ 0 WARP_SIZE) && (Z.testbit mask l && pred l)).
  2:{ f_equal. apply bool_decide_ext. rewrite elem_of_seqZ. lia. }
  induction Hpos as [|a ls Ha Hpos IH]; simpl.
  - by rewrite Z.testbit_0_l.
  - destruct (decide (l = a)) as [->|Hne].
    + rewrite (bool_decide_eq_true_2 (a ∈ a :: ls)) by left. simpl.
      destruct (Z.testbit mask a && pred a) eqn:E; [|rewrite IH; apply andb_false_r].
      rewrite Z.lor_spec, Z.shiftl_1_l, Z.pow2_bits_eqb, Z.eqb_refl by done. done.
    + assert (bool_decide (l ∈ a :: ls) = bool_decide (l ∈ ls)) as ->.
      { apply bool_decide_ext. rewrite elem_of_cons.
        split; [intros [?|?]; [congruence|done]|by right]. }
      destruct (Z.testbit mask a && pred a); [|done].
      rewrite Z.lor_spec, Z.shiftl_1_l, Z.pow2_bits_eqb by done.
      rewrite (proj2 (Z.eqb_neq a l)) by done. done.
Qed.

Lemma full_active_spec input i l :
  Z.testbit (full_active input i) l =
    bool_decide (0 ≤ l < WARP_SIZE ∧ i + l < num_columns input).
Proof.
  unfold full_active. rewrite ballot_sync_spec.
  destruct (decide (0 ≤ l < WARP_SIZE)) as [Hl|Hl].
  - change 4294967295 with (Z.ones 32). rewrite Z.ones_spec_low by (unfold WARP_SIZE in Hl; lia).
    rewrite bool_decide_eq_true_2 by done. simpl. apply bool_decide_ext. tauto.
  - rewrite (bool_decide_eq_false_2 (0 ≤ l < WARP_SIZE)) by done.
    rewrite (bool_decide_eq_false_2 (_ ∧ _)) by tauto. done.
Qed.

Lemma band_word_spec input i j l :
  Z.testbit (band_word input i j) l =
    bool_decide (0 ≤ l < WARP_SIZE ∧ i + l < num_columns input) &&
    is_valid (get_column input (i + l)) j.
Proof.
  unfold band_word. rewrite ballot_sync_spec, full_active_spec.
  repeat case_bool_decide; simpl; try done; tauto.
Qed.

Lemma active_update input i i' :
  i ≤ i' →
  ballot_sync (full_active input i) (λ lane, bool_decide (i' + lane < num_columns input)) =
    full_active input i'.
Proof.
  intros Hi. apply Z.bits_inj'. intros l _.
  rewrite ballot_sync_spec, !full_active_spec.
  repeat case_bool_decide; simpl; try done; lia.
Qed.

Lemma filter_length_split {A : Type} (P Q R : A → Prop)
    `{!∀ x, Decision (P x), !∀ x, Decision (Q x), !∀ x, Decision (R x)} (l : list A) :
  (∀ x, x ∈ l → (P x ↔ Q x ∨ R x) ∧ ¬ (Q x ∧ R x)) →
  length (filter P l) = (length (filter Q l) + length (filter R l))%nat.
Proof.
  induction l as [|a l IH]; intros Hall; [done|].
  rewrite !filter_cons. destruct (Hall a) as [Hsplit Hexcl]; [left|].
  specialize (IH (λ x Hx, Hall x (list_elem_of_further _ _ _ Hx))).
  repeat case_decide; simpl; try lia; tauto.
Qed.

(** [popc(active_threads) - popc(result)] counts the null elements of the
    band, not the lanes beyond the last column. *)
Lemma popc_difference input i j :
  popc (full_active input i) - popc (band_word input i j) = band_nulls input i j.
Proof.
  unfold popc, band_nulls.
  rewrite (filter_length_split
             (λ lane, Z.testbit (full_active input i) lane = true)
             (λ lane, Z.testbit (band_word input i j) lane = true)
             (λ lane, i + lane < num_columns input ∧
                      is_valid (get_column input (i + lane)) j = false)); [lia|].
  intros l Hl%elem_of_seqZ. rewrite full_active_spec, band_word_spec.
  destruct (is_valid (get_column input (i + l)) j);
    case_bool_decide; simpl; split; try tauto; intuition (congruence || lia).
Qed.

(** ** The validity kernel as a sequence of stores *)

Lemma valids_body_store input t i j st :
  threadIdx_x t mod WARP_SIZE = 0 →
  valids_body input t i (full_active input i) j st = valids_store input st (i, j).
Proof.
  intros Ht. unfold valids_body, valids_store. rewrite decide_True by done.
  cbn [fst snd]. rewrite <- popc_difference. unfold band_word. reflexivity.
Qed.

Lemma cells_unfold x y sx sy ncols nrows :
  0 < sx →
  cells x y sx sy ncols nrows =
    if decide (x < ncols)
    then (strided_range y sy nrows ≫= λ j, [(x, j)]) ++ cells (x + sx) y sx sy ncols nrows
    else [].
Proof.
  intros Hs. unfold cells. rewrite (strided_range_unfold x) by done.
  case_decide; [|done]. by rewrite bind_cons.
Qed.

Lemma valids_while_run fuel fuel_rows input t y stride_x stride_y i st :
  threadIdx_x t mod WARP_SIZE = 0 →
  0 ≤ i → 0 < stride_x → num_columns input + stride_x ≤ INT_MAX + 1 →
  0 ≤ y → 0 < stride_y → num_rows input + stride_y ≤ INT_MAX + 1 →
  Z.max 0 (num_columns input - i) < Z.of_nat fuel →
  Z.max 0 (num_rows input - y) < Z.of_nat fuel_rows →
  valids_while fuel fuel_rows input t y stride_x stride_y i (full_active input i) st =
    Some (foldl (valids_store input) st
            (cells i y stride_x stride_y (num_columns input) (num_rows input))).
Proof.
  intros Ht Hi Hsx Hbx Hy Hsy Hby. revert i st Hi.
  induction fuel as [|fuel IH]; intros i st Hi Hf Hfr; [lia|].
  rewrite cells_unfold by done. simpl. case_decide; [|done].
  rewrite for_strided_run by lia.
  rewrite (run_all_flatten _ (valids_store input) (λ j, [(i, j)])).
  2:{ intros j s _. simpl. by rewrite valids_body_store. }
  simpl. rewrite wrap32_small by (unfold INT_MAX in *; lia).
  rewrite active_update by lia. rewrite IH by lia. by rewrite foldl_app.
Qed.

Lemma gpu_transpose_valids_unfold fuel gridDim blockDim input t st :
  gpu_transpose_valids fuel gridDim blockDim input t st =
    valids_while fuel fuel input t (thread_y blockDim t)
      (dim_x blockDim * dim_x gridDim) (dim_y blockDim * dim_y gridDim)
      (thread_x blockDim t) (full_active input (thread_x blockDim t)) st.
Proof. unfold gpu_transpose_valids, full_active, thread_x, thread_y. reflexivity. Qed.

Lemma gpu_transpose_valids_run fuel gridDim input t st :
  geometry gridDim dimBlock input → enough_fuel fuel input →
  t ∈ grid_warps gridDim dimBlock →
  gpu_transpose_valids fuel gridDim dimBlock input t st =
    Some (foldl (valids_store input) st (thread_cells gridDim dimBlock input t)).
Proof.
  intros [g1 g2 g3 g4 g5 g6] [Hfc Hfr] [[Hbx Hby] [Htx Hty]]%elem_of_grid_warps.
  pose proof (thread_x_range gridDim dimBlock t g1 Hbx ltac:(lia)) as Hx.
  pose proof (thread_y_range gridDim dimBlock t g2 Hby Hty) as Hy.
  assert (0 < dim_x dimBlock * dim_x gridDim) by nia.
  assert (0 < dim_y dimBlock * dim_y gridDim) by nia.
  rewrite gpu_transpose_valids_unfold. unfold thread_cells.
  apply valids_while_run; [by rewrite Htx|lia..].
Qed.

Lemma valids_kernel_run fuel gridDim input st :
  geometry gridDim dimBlock input → enough_fuel fuel input →
  run_all (gpu_transpose_valids fuel gridDim dimBlock input) (grid_warps gridDim dimBlock) st =
    Some (foldl (valids_store input) st
            (grid_warps gridDim dimBlock ≫= thread_cells gridDim dimBlock input)).
Proof.
  intros Hg Hf. apply run_all_flatten. intros t s Ht. by apply gpu_transpose_valids_run.
Qed.

Lemma vs_output_stores input (W : list (Z * Z)) st :
  vs_output (foldl (valids_store input) st W) = foldl (store_word input) (vs_output st) W.
Proof. revert st. induction W as [|c W IH]; intros st; simpl; [done|by rewrite IH]. Qed.

Lemma vs_null_count_stores input (W : list (Z * Z)) st :
  vs_null_count (foldl (valids_store input) st W) =
    foldl (add_nulls input) (vs_null_count st) W.
Proof. revert st. induction W as [|c W IH]; intros st; simpl; [done|by rewrite IH]. Qed.

(** ** Stores into the output masks *)

Lemma word_ok_store input output c j k :
  word_ok output j k → word_ok (store_word input output c) j k.
Proof.
  intros (col & m & Hl & Hm & Hlen). unfold store_word, word_ok.
  destruct (decide (Z.to_nat c.2 = Z.to_nat j)) as [Heq|Hne].
  - eexists _, _. rewrite list_lookup_alter, decide_True, Heq, Hl by done. simpl.
    split; [done|]. simpl. rewrite Hm. simpl. split; [done|]. by rewrite length_insert.
  - exists col, m. by rewrite list_lookup_alter_ne.
Qed.

Lemma mask_word_store input output c j k :
  0 ≤ k → 0 ≤ j → 0 ≤ c.1 → c.1 mod WARP_SIZE = 0 → 0 ≤ c.2 → word_ok output j k →
  mask_word (store_word input output c) j k =
    if decide (c = (WARP_SIZE * k, j)) then band_word input (WARP_SIZE * k) j
    else mask_word output j k.
Proof.
  intros Hk Hj Hc1 Hcm Hc2 (col & m & Hl & Hm & Hlen). destruct c as [i' j']. simpl in *.
  unfold store_word, mask_word, get_column. simpl.
  destruct (decide (Z.to_nat j' = Z.to_nat j)) as [Heq|Hne].
  - assert (j' = j) as -> by lia. rewrite list_lookup_alter, decide_True, Hl by done. simpl.
    rewrite Hm. simpl. unfold read_word, word_index.
    destruct (decide (i' = WARP_SIZE * k)) as [->|Hne].
    + rewrite decide_True by done. unfold WARP_SIZE.
      replace (32 * k / 32) with k by (rewrite Z.mul_comm, Z.div_mul; lia).
      by rewrite list_lookup_insert_eq.
    + rewrite decide_False by congruence.
      rewrite list_lookup_insert_ne; [done|].
      intros Heq'. apply Hne. unfold WARP_SIZE in *.
      apply Z.mod_divide in Hcm as [q ->]; [|lia].
      rewrite Z.div_mul in Heq' by lia. lia.
  - rewrite list_lookup_alter_ne by done. rewrite decide_False by congruence. done.
Qed.

Lemma mask_word_stores input (W : list (Z * Z)) output j k :
  0 ≤ k → 0 ≤ j →
  Forall (λ c, 0 ≤ c.1 ∧ c.1 mod WARP_SIZE = 0 ∧ 0 ≤ c.2) W → word_ok output j k →
  (WARP_SIZE * k, j) ∈ W ∨ mask_word output j k = band_word input (WARP_SIZE * k) j →
  mask_word (foldl (store_word input) output W) j k = band_word input (WARP_SIZE * k) j.
Proof.
  intros Hk Hj HW. revert output.
  induction HW as [|c W (Hc1 & Hcm & Hc2) HW IH]; intros output Hs Hin.
  - simpl. destruct Hin as [?%elem_of_nil|]; done.
  - simpl. apply IH; [by apply word_ok_store|].
    rewrite mask_word_store by done. case_decide as Hc; [by right|].
    destruct Hin as [[?|?]%elem_of_cons|?]; [congruence|by left|by right].
Qed.

(** The mask stores leave alone whatever does not depend on the mask
    contents. *)
Lemma fmap_word_stores {B : Type} (f : column → B) input (W : list (Z * Z)) output :
  (∀ w v c, f (set_mask_word w v c) = f c) →
  f <$> foldl (store_word input) output W = f <$> output.
Proof.
  intros Hf. revert output. induction W as [|c W IH]; intros output; simpl; [done|].
  rewrite IH. unfold store_word.
  rewrite (list_fmap_alter _ _ id).
  - by apply list_alter_id.
  - apply Forall_forall. intros col _. apply Hf.
Qed.

(** ** Accumulated null counts *)

#[local] Instance sumZ_Permutation : Proper ((≡ₚ) ==> (=)) sumZ.
Proof.
  intros l1 l2 Hp. unfold sumZ.
  induction Hp; simpl; [done|congruence|lia|congruence].
Qed.

Lemma sumZ_cons x l : sumZ (x :: l) = x + sumZ l.
Proof. done. Qed.

Lemma sumZ_app l1 l2 : sumZ (l1 ++ l2) = sumZ l1 + sumZ l2.
Proof. unfold sumZ. induction l1; simpl; [done|lia]. Qed.

Lemma length_add_nulls input (W : list (Z * Z)) counts :
  length (foldl (add_nulls input) counts W) = length counts.
Proof.
  revert counts. induction W as [|c W IH]; intros counts; simpl; [done|].
  rewrite IH. unfold add_nulls, atomicAdd. apply length_alter.
Qed.

Lemma count_at_add_nulls input counts c j :
  0 ≤ j → 0 ≤ c.2 → (Z.to_nat j < length counts)%nat →
  count_at (add_nulls input counts c) j =
    count_at counts j + (if decide (c.2 = j) then band_nulls input c.1 c.2 else 0).
Proof.
  intros Hj Hc Hlen. unfold count_at, add_nulls, atomicAdd.
  destruct (lookup_lt_is_Some_2 counts (Z.to_nat j) Hlen) as [v Hv].
  case_decide as Hd.
  - rewrite Hd, list_lookup_alter_eq, Hv. simpl. lia.
  - rewrite list_lookup_alter_ne by lia. lia.
Qed.

Lemma count_at_stores input (W : list (Z * Z)) counts j :
  0 ≤ j → Forall (λ c, 0 ≤ c.2) W → (Z.to_nat j < length counts)%nat →
  count_at (foldl (add_nulls input) counts W) j =
    count_at counts j +
    sumZ ((λ c, band_nulls input c.1 c.2) <$> filter (λ c, c.2 = j) W).
Proof.
  intros Hj HW. revert counts. induction HW as [|c W Hc HW IH]; intros counts Hlen.
  - simpl. unfold sumZ. simpl. lia.
  - simpl. rewrite IH by (unfold add_nulls, atomicAdd; by rewrite length_alter).
    rewrite count_at_add_nulls by done. rewrite filter_cons.
    case_decide; rewrite ?fmap_cons, ?sumZ_cons; lia.
Qed.

Lemma row_stores_bands (W : list (Z * Z)) ncols nrows j :
  NoDup W →
  (∀ i j', (i, j') ∈ W ↔ (0 ≤ i < ncols ∧ i mod WARP_SIZE = 0) ∧ 0 ≤ j' < nrows) →
  0 ≤ j < nrows →
  filter (λ c, c.2 = j) W ≡ₚ (λ i, (i, j)) <$> bands ncols.
Proof.
  intros Hnd HW Hj. apply NoDup_Permutation.
  - by apply NoDup_filter.
  - apply NoDup_fmap_2; [intros ?? ?; by simplify_eq|].
    apply NoDup_filter, NoDup_seqZ.
  - intros [i j']. rewrite list_elem_of_filter, HW, list_elem_of_fmap. simpl.
    unfold bands. setoid_rewrite list_elem_of_filter. setoid_rewrite elem_of_seqZ.
    split.
    + intros (-> & [? ?] & ?). exists i. split; [done|]. split; [done|lia].
    + intros (i' & Heq & ? & ?). simplify_eq. split; [done|]. split; [|done]. lia.
Qed.

(** ** Bands of 32 columns *)

Lemma elem_of_bands ncols i : i ∈ bands ncols ↔ 0 ≤ i < ncols ∧ i mod WARP_SIZE = 0.
Proof. unfold bands. rewrite list_elem_of_filter, elem_of_seqZ. lia. Qed.

Lemma elem_of_band ncols i c : c ∈ band ncols i ↔ i ≤ c < i + WARP_SIZE ∧ c < ncols.
Proof.
  unfold band, lanes. rewrite list_elem_of_filter, list_elem_of_fmap.
  setoid_rewrite elem_of_seqZ. split.
  - intros (? & l & -> & ?). lia.
  - intros [? ?]. split; [done|]. exists (c - i). lia.
Qed.

Lemma NoDup_band ncols i : NoDup (band ncols i).
Proof.
  unfold band. apply NoDup_filter, NoDup_fmap_2; [|apply NoDup_seqZ].
  intros ???. lia.
Qed.

Lemma bands_cover ncols : bands ncols ≫= band ncols ≡ₚ seqZ 0 ncols.
Proof.
  apply NoDup_Permutation.
  - apply NoDup_bind.
    + intros i1 i2 c [_ H1]%elem_of_bands [_ H2]%elem_of_bands
        [Hc1 _]%elem_of_band [Hc2 _]%elem_of_band.
      unfold WARP_SIZE in *.
      apply Z.mod_divide in H1 as [q1 ->], H2 as [q2 ->]; [|lia..].
      destruct (block_decompose_unique 32 q1 (c - q1 * 32) q2 (c - q2 * 32)); [lia..|].
      by subst.
    + intros. apply NoDup_band.
    + apply NoDup_filter, NoDup_seqZ.
  - apply NoDup_seqZ.
  - intros c. rewrite list_elem_of_bind, elem_of_seqZ.
    setoid_rewrite elem_of_bands. setoid_rewrite elem_of_band. unfold WARP_SIZE. split.
    + intros (i & ? & ?). lia.
    + intros Hc. exists (32 * (c / 32)).
      pose proof (Z.mod_pos_bound c 32 ltac:(lia)).
      pose proof (Z.div_mod c 32 ltac:(lia)).
      assert (0 ≤ c / 32) by (apply Z.div_pos; lia).
      repeat split; try lia.
      rewrite Z.mul_comm. apply Z.mod_mul. lia.
Qed.

Lemma length_filter_bind {A B : Type} (Q : B → Prop) `{!∀ x, Decision (Q x)}
    (f : A → list B) (l : list A) :
  Z.of_nat (length (filter Q (l ≫= f))) =
    sumZ ((λ a, Z.of_nat (length (filter Q (f a)))) <$> l).
Proof.
  induction l as [|a l IH]; [done|].
  rewrite bind_cons, filter_app, length_app, fmap_cons, sumZ_cons. lia.
Qed.

Lemma length_filter_fmap {A B : Type} (P : B → Prop) `{!∀ x, Decision (P x)}
    (f : A → B) (l : list A) :
  length (filter P (f <$> l)) = length (filter (λ a, P (f a)) l).
Proof.
  induction l as [|a l IH]; [done|].
  rewrite fmap_cons, !filter_cons. case_decide; simpl; by rewrite IH.
Qed.

Lemma band_nulls_band input i j :
  band_nulls input i j =
    Z.of_nat (length (filter (λ c, is_valid (get_column input c) j = false)
                             (band (num_columns input) i))).
Proof.
  unfold band_nulls, band. rewrite list_filter_filter, length_filter_fmap.
  f_equal. f_equal. apply list_filter_iff. intros l. simpl. tauto.
Qed.

(** The null counts of the bands of a row add up to the nulls of the row. *)
Lemma sum_band_nulls input j :
  sumZ ((λ i, band_nulls input i j) <$> bands (num_columns input)) = row_nulls input j.
Proof.
  unfold row_nulls. rewrite <- bands_cover, length_filter_bind.
  f_equal. apply list_fmap_ext. intros _ i _. apply band_nulls_band.
Qed.

(** ** [launch_kernel] and [transpose] on valid input *)

Lemma div_rounding_up_safe_pos n : 0 < n → 0 < div_rounding_up_safe n WARP_SIZE.
Proof.
  intros Hn. unfold div_rounding_up_safe, WARP_SIZE.
  pose proof (Z.div_mod n 32 ltac:(lia)). pose proof (Z.mod_pos_bound n 32 ltac:(lia)).
  assert (0 ≤ n / 32) by (apply Z.div_pos; lia).
  case_decide; lia.
Qed.

Lemma dimGrid_geometry input :
  0 < num_columns input → 0 < num_rows input → fits_size_type input →
  geometry (dimGrid input) dimBlock input.
Proof.
  intros Hc Hr [Hfc Hfr].
  pose proof (div_rounding_up_safe_pos _ Hc). pose proof (div_rounding_up_safe_pos _ Hr).
  unfold WARP_SIZE, MAX_GRID_SIZE, INT_MAX in *.
  split; unfold dimGrid, dimBlock, WARP_SIZE, MAX_GRID_SIZE, INT_MAX; simpl; lia.
Qed.

Lemma launch_kernel_values fuel input output :
  geometry (dimGrid input) dimBlock input → enough_fuel fuel input →
  launch_kernel fuel input output [] =
    Some (foldl (store_cell input) output (value_stores input), []).
Proof.
  intros Hg Hf. unfold launch_kernel. by rewrite value_kernel_run.
Qed.

Lemma launch_kernel_valids fuel input output n :
  geometry (dimGrid input) dimBlock input → enough_fuel fuel input →
  launch_kernel fuel input output (replicate (S n) 0) =
    Some (foldl (store_word input)
            (foldl (store_cell input) output (value_stores input)) (valids_stores input),
          foldl (add_nulls input) (replicate (S n) 0) (valids_stores input)).
Proof.
  intros Hg Hf. unfold launch_kernel. rewrite value_kernel_run by done.
  cbn [mbind option_bind replicate]. rewrite valids_kernel_run by done.
  cbn [mbind option_bind]. rewrite vs_output_stores, vs_null_count_stores. cbn [vs_output vs_null_count].
  cbn [length]. by rewrite length_replicate.
Qed.

Lemma transpose_run fuel uninit input :
  valid_input input → enough_fuel fuel input →
  transpose fuel uninit input = (transpose_events input, Ok (transposed uninit input)).
Proof.
  intros [Hc Hr Ht Hfix Hfit] Hf.
  pose proof (dimGrid_geometry input Hc Hr Hfit) as Hg.
  unfold transpose, transposed, transpose_events.
  rewrite decide_False by lia.
  rewrite Ht, Hfix. cbn [negb].
  fold (allocated uninit input).
  destruct (has_nulls input) eqn:Hn.
  - destruct (Z.to_nat (num_rows input)) as [|n] eqn:En; [lia|].
    by rewrite launch_kernel_valids.
  - change (Z.to_nat 0) with 0%nat. cbn [replicate].
    by rewrite launch_kernel_values.
Qed.

(** ** Shape of the result *)

Lemma fmap_eq_get_column {B : Type} (f : column → B) (l1 l2 : table_view) j :
  f <$> l1 = f <$> l2 → f (get_column l1 j) = f (get_column l2 j).
Proof.
  intros Heq. unfold get_column.
  assert ((f <$> l1) !! Z.to_nat j = (f <$> l2) !! Z.to_nat j) as Hl by by rewrite Heq.
  rewrite !list_lookup_fmap in Hl.
  destruct (l1 !! Z.to_nat j), (l2 !! Z.to_nat j); simpl in *; congruence.
Qed.

Lemma fmap_set_null_counts {B : Type} (f : column → B) counts (l : table_view) :
  (∀ n c, f (set_null_count n c) = f c) → f <$> set_null_counts counts l = f <$> l.
Proof.
  intros Hf. apply list_eq. intros n. unfold set_null_counts.
  rewrite !list_lookup_fmap, list_lookup_imap.
  destruct (l !! n); simpl; [|done]. by rewrite Hf.
Qed.

Lemma num_rows_get_column (l : table_view) : num_rows l = size (get_column l 0).
Proof. by destruct l. Qed.

Lemma length_allocated uninit input :
  length (allocated uninit input) = Z.to_nat (num_rows input).
Proof. unfold allocated. by rewrite length_fmap, length_seqZ. Qed.

Lemma allocated_lookup uninit input j :
  0 ≤ j < num_rows input →
  allocated uninit input !! Z.to_nat j =
    Some (allocate_like (uninit j) (get_column input 0) (num_columns input)
            (if has_nulls input then ALWAYS else NEVER)).
Proof.
  intros Hj. unfold allocated. rewrite list_lookup_fmap, lookup_seqZ_lt by lia.
  simpl. do 3 f_equal. lia.
Qed.

(** Every transformation of the output after its allocation keeps the
    projections that ignore payload contents, mask contents and null
    count. *)
Lemma transposed_shape {B : Type} (f : column → B) uninit input :
  (∀ i v c, f (set_element i v c) = f c) →
  (∀ w v c, f (set_mask_word w v c) = f c) →
  (∀ n c, f (set_null_count n c) = f c) →
  f <$> transposed uninit input = f <$> allocated uninit input.
Proof.
  intros H1 H2 H3. unfold transposed. destruct (has_nulls input).
  - by rewrite fmap_set_null_counts, fmap_word_stores, fmap_stores.
  - by rewrite fmap_stores.
Qed.

Lemma length_transposed uninit input :
  length (transposed uninit input) = Z.to_nat (num_rows input).
Proof.
  rewrite <- (length_fmap type), (transposed_shape type), length_fmap by done.
  apply length_allocated.
Qed.

Lemma num_columns_transposed uninit input :
  0 ≤ num_rows input → num_columns (transposed uninit input) = num_rows input.
Proof. intros. unfold num_columns. rewrite length_transposed. lia. Qed.

Lemma transposed_column_shape uninit input j :
  0 ≤ j < num_rows input →
  let c := get_column (transposed uninit input) j in
  type c = type (get_column input 0) ∧ size c = num_columns input ∧ offset c = 0 ∧
  length (data c) = length input ∧
  (is_Some (null_mask c) ↔ has_nulls input = true).
Proof.
  intros Hj c.
  pose (shape := λ c : column, (type c, size c, offset c, length (data c),
                                 from_option (λ _, true) false (null_mask c))).
  assert (shape c = shape (get_column (allocated uninit input) j)) as Hs.
  { apply fmap_eq_get_column, transposed_shape; intros; unfold shape; simpl; try done.
    - by rewrite length_insert.
    - by destruct (null_mask _). }
  unfold get_column in Hs at 1. rewrite allocated_lookup in Hs by done.
  unfold shape in Hs. simpl in Hs. injection Hs as -> -> -> -> Hm.
  rewrite length_fmap, length_seqZ. unfold num_columns.
  repeat split; try lia.
  - intros [m Hsome]. rewrite Hsome in Hm. by destruct (has_nulls input).
  - intros Hn. rewrite Hn in Hm. destruct (null_mask c); [by eexists|done].
Qed.

(** ** Contents of the result *)

Lemma valid_geometry input : valid_input input → geometry (dimGrid input) dimBlock input.
Proof. intros [Hc Hr _ _ Hfit]. by apply dimGrid_geometry. Qed.

Lemma elem_of_value_stores input i j :
  valid_input input →
  (i, j) ∈ value_stores input ↔ 0 ≤ i < num_columns input ∧ 0 ≤ j < num_rows input.
Proof. intros Hv. unfold value_stores. apply elem_of_stores, valid_geometry, Hv. Qed.

Lemma NoDup_value_stores input : valid_input input → NoDup (value_stores input).
Proof.
  intros Hv. unfold value_stores.
  apply NoDup_stores; [by apply valid_geometry|apply NoDup_grid_threads|done].
Qed.

Lemma elem_of_valids_stores input i j :
  valid_input input →
  (i, j) ∈ valids_stores input ↔
    (0 ≤ i < num_columns input ∧ i mod WARP_SIZE = 0) ∧ 0 ≤ j < num_rows input.
Proof.
  intros Hv. unfold valids_stores.
  apply (elem_of_warp_stores _ dimBlock), valid_geometry, Hv.
Qed.

Lemma NoDup_valids_stores input : valid_input input → NoDup (valids_stores input).
Proof.
  intros Hv. unfold valids_stores.
  apply NoDup_stores; [by apply valid_geometry|apply NoDup_grid_warps|].
  intros t. by apply grid_warps_threads.
Qed.

Lemma transposed_element uninit input i j :
  valid_input input → 0 ≤ i < num_columns input → 0 ≤ j < num_rows input →
  element (get_column (transposed uninit input) j) i = element (get_column input i) j.
Proof.
  intros Hv Hi Hj.
  set (values := foldl (store_cell input) (allocated uninit input) (value_stores input)).
  pose (payload := λ c : column, (data c, offset c)).
  assert (payload (get_column (transposed uninit input) j) =
          payload (get_column values j)) as Hp.
  { apply fmap_eq_get_column. unfold transposed. fold values.
    destruct (has_nulls input); [|done].
    by rewrite fmap_set_null_counts, fmap_word_stores. }
  unfold payload in Hp. injection Hp as Hd Ho.
  transitivity (element (get_column values j) i).
  { unfold element. by rewrite Hd, Ho. }
  apply element_stores; try lia.
  - apply Forall_forall. intros [i' j'] Hin%elem_of_value_stores; [simpl; lia|done].
  - eexists. split; [by apply allocated_lookup|]. simpl. split; [done|].
    rewrite length_fmap, length_seqZ. lia.
  - left. by apply elem_of_value_stores.
Qed.

Lemma num_bitmask_words_bound ncols k :
  0 ≤ k → WARP_SIZE * k < ncols → k < num_bitmask_words ncols.
Proof.
  unfold num_bitmask_words, div_rounding_up_safe, WARP_SIZE. intros Hk Hlt.
  pose proof (Z.div_mod ncols 32 ltac:(lia)). pose proof (Z.mod_pos_bound ncols 32 ltac:(lia)).
  case_decide; lia.
Qed.

Lemma transposed_mask_word uninit input j k :
  valid_input input → has_nulls input = true →
  0 ≤ j < num_rows input → 0 ≤ k → WARP_SIZE * k < num_columns input →
  mask_word (transposed uninit input) j k = band_word input (WARP_SIZE * k) j.
Proof.
  intros Hv Hn Hj Hk Hlt.
  set (values := foldl (store_cell input) (allocated uninit input) (value_stores input)).
  transitivity (mask_word (foldl (store_word input) values (valids_stores input)) j k).
  { unfold mask_word. f_equal. f_equal. apply (fmap_eq_get_column null_mask).
    unfold transposed. fold values. rewrite Hn. by rewrite fmap_set_null_counts. }
  apply mask_word_stores; try lia.
  - apply Forall_forall. intros [i' j'] Hin%elem_of_valids_stores; [simpl; lia|done].
  - assert (null_mask <$> values !! Z.to_nat j =
            null_mask <$> allocated uninit input !! Z.to_nat j) as Hl.
    { rewrite <- !list_lookup_fmap. unfold values. by rewrite fmap_stores. }
    rewrite allocated_lookup, Hn in Hl by done.
    destruct (values !! Z.to_nat j) as [c|] eqn:Hc; [|done]. simpl in Hl.
    injection Hl as Hl. eexists c, _. split; [done|]. split; [done|].
    rewrite length_fmap, length_seqZ.
    pose proof (num_bitmask_words_bound (num_columns input) k Hk Hlt). lia.
  - left. apply elem_of_valids_stores; [done|].
    assert ((WARP_SIZE * k) mod WARP_SIZE = 0).
    { rewrite Z.mul_comm. apply Z.mod_mul. by unfold WARP_SIZE. }
    unfold WARP_SIZE in *. lia.
Qed.

Lemma transposed_null_count uninit input j :
  valid_input input → has_nulls input = true → 0 ≤ j < num_rows input →
  null_count (get_column (transposed uninit input) j) = row_nulls input j.
Proof.
  intros Hv Hn Hj. unfold transposed. rewrite Hn.
  set (masked := foldl (store_word input) _ _).
  set (counts := foldl (add_nulls input) _ _).
  assert (is_Some (masked !! Z.to_nat j)) as [c Hc].
  { apply lookup_lt_is_Some. rewrite <- (length_fmap type). unfold masked.
    rewrite fmap_word_stores, fmap_stores, length_fmap, length_allocated by done. lia. }
  unfold get_column, set_null_counts. rewrite list_lookup_imap, Hc. simpl.
  fold (count_at counts j). unfold counts.
  rewrite count_at_stores; try lia.
  - unfold count_at at 1. rewrite lookup_replicate_2 by lia. simpl.
    rewrite (row_stores_bands _ (num_columns input) (num_rows input)); try done.
    + rewrite <- list_fmap_compose, Z.add_0_l. exact (sum_band_nulls input j).
    + by apply NoDup_valids_stores.
    + intros. by apply elem_of_valids_stores.
  - apply Forall_forall. intros [i' j'] Hin%elem_of_valids_stores; [simpl; lia|done].
  - rewrite length_replicate. lia.
Qed.

(** * The transposed table *)

Ltac solve_example_valid := split; try reflexivity; split; vm_compute; discriminate.
Ltac solve_example_fuel := split; vm_compute; reflexivity.

(** C1 (element correspondence).  For a valid input table, [transpose]
    returns a table [out] with
    [out.column(j).element(i) = input.column(i).element(j)] for all
    [i < ncols] and [j < nrows]; the launch of [gpu_transpose] amounts to a
    sequence of stores that has no duplicate and contains exactly the pairs
    [(i, j)] of the table, so every output element is stored once, on any
    grid size. *)
Theorem transpose_element_correspondence fuel uninit input :
  valid_input input → enough_fuel fuel input →
  ∃ out,
    transpose fuel uninit input = (transpose_events input, Ok out) ∧
    (∀ i j, 0 ≤ i < num_columns input → 0 ≤ j < num_rows input →
            element (get_column out j) i = element (get_column input i) j) ∧
    run_all (gpu_transpose fuel (dimGrid input) dimBlock input)
            (grid_threads (dimGrid input) dimBlock) (allocated uninit input) =
      Some (foldl (store_cell input) (allocated uninit input) (value_stores input)) ∧
    NoDup (value_stores input) ∧
    (∀ i j, (i, j) ∈ value_stores input ↔
            0 ≤ i < num_columns input ∧ 0 ≤ j < num_rows input).
Proof.
  intros Hv Hf. exists (transposed uninit input). split; [by apply transpose_run|].
  split; [intros; by apply transposed_element|].
  split; [apply value_kernel_run; [by apply valid_geometry|done]|].
  split; [by apply NoDup_value_stores|]. intros. by apply elem_of_value_stores.
Qed.

Lemma transpose_element_correspondence_witness :
  ∃ out,
    transpose 4 example_uninit example_table = (transpose_events example_table, Ok out) ∧
    (∀ i j, 0 ≤ i < num_columns example_table → 0 ≤ j < num_rows example_table →
            element (get_column out j) i = element (get_column example_table i) j) ∧
    run_all (gpu_transpose 4 (dimGrid example_table) dimBlock example_table)
            (grid_threads (dimGrid example_table) dimBlock)
            (allocated example_uninit example_table) =
      Some (foldl (store_cell example_table) (allocated example_uninit example_table)
                  (value_stores example_table)) ∧
    NoDup (value_stores example_table) ∧
    (∀ i j, (i, j) ∈ value_stores example_table ↔
            0 ≤ i < num_columns example_table ∧ 0 ≤ j < num_rows example_table).
Proof.
  apply (transpose_element_correspondence 4 example_uninit example_table).
  - solve_example_valid.
  - solve_example_fuel.
Defined.

Lemma transposed_mask_bits uninit input i j :
  valid_input input → has_nulls input = true →
  0 ≤ i < num_columns input → 0 ≤ j < num_rows input →
  mask_bit (get_column (transposed uninit input) j) i =
    Some (is_valid (get_column input i) j) ∧
  ∀ lane, 0 ≤ lane < WARP_SIZE →
    Z.testbit (mask_word (transposed uninit input) j (word_index i)) lane =
      bool_decide (WARP_SIZE * word_index i + lane < num_columns input) &&
      is_valid (get_column input (WARP_SIZE * word_index i + lane)) j.
Proof.
  intros Hv Hn Hi Hj. unfold word_index, WARP_SIZE.
  pose proof (Z.div_mod i 32 ltac:(lia)) as Hdm.
  pose proof (Z.mod_pos_bound i 32 ltac:(lia)) as Hm.
  assert (0 ≤ i / 32) as Hq by (apply Z.div_pos; lia).
  assert (∀ lane, 0 ≤ lane < 32 →
    Z.testbit (mask_word (transposed uninit input) j (i / 32)) lane =
      bool_decide (32 * (i / 32) + lane < num_columns input) &&
      is_valid (get_column input (32 * (i / 32) + lane)) j) as Hbits.
  { intros lane Hl.
    rewrite transposed_mask_word by (unfold WARP_SIZE; (done || lia)).
    rewrite band_word_spec. unfold WARP_SIZE. f_equal. apply bool_decide_ext. lia. }
  split; [|done].
  destruct (transposed_column_shape uninit input j Hj) as (_ & _ & Ho & _ & Hmask).
  destruct (proj2 Hmask Hn) as [m Hsome].
  unfold mask_bit. rewrite Hsome, Ho. simpl. f_equal.
  specialize (Hbits (i mod 32) Hm). unfold mask_word in Hbits. rewrite Hsome in Hbits.
  simpl in Hbits. unfold bit_is_set, word_index, intra_word_index.
  rewrite Z.add_0_l, Hbits. rewrite <- Hdm. by rewrite bool_decide_eq_true_2 by lia.
Qed.

(** C2 (validity correspondence).  For a valid input table with nulls, bit
    [i] of the validity mask of output column [j] is set exactly when
    element [j] of input column [i] is valid; the mask word at index
    [i / 32] of output column [j] holds, at bit position [lane], the
    validity of input column [32 * (i / 32) + lane] at row [j] (0 for a
    lane beyond the last column). *)
Theorem transpose_validity_correspondence fuel uninit input :
  valid_input input → has_nulls input = true → enough_fuel fuel input →
  ∃ out,
    transpose fuel uninit input = (transpose_events input, Ok out) ∧
    ∀ i j, 0 ≤ i < num_columns input → 0 ≤ j < num_rows input →
      mask_bit (get_column out j) i = Some (is_valid (get_column input i) j) ∧
      ∀ lane, 0 ≤ lane < WARP_SIZE →
        Z.testbit (mask_word out j (word_index i)) lane =
          bool_decide (WARP_SIZE * word_index i + lane < num_columns input) &&
          is_valid (get_column input (WARP_SIZE * word_index i + lane)) j.
Proof.
  intros Hv Hn Hf. exists (transposed uninit input). split; [by apply transpose_run|].
  intros. by apply transposed_mask_bits.
Qed.

Lemma transpose_validity_correspondence_witness :
  ∃ out,
    transpose 4 example_uninit example_table = (transpose_events example_table, Ok out) ∧
    ∀ i j, 0 ≤ i < num_columns example_table → 0 ≤ j < num_rows example_table →
      mask_bit (get_column out j) i = Some (is_valid (get_column example_table i) j) ∧
      ∀ lane, 0 ≤ lane < WARP_SIZE →
        Z.testbit (mask_word out j (word_index i)) lane =
          bool_decide (WARP_SIZE * word_index i + lane < num_columns example_table) &&
          is_valid (get_column example_table (WARP_SIZE * word_index i + lane)) j.
Proof.
  apply (transpose_validity_correspondence 4 example_uninit example_table).
  - solve_example_valid.
  - reflexivity.
  - solve_example_fuel.
Defined.

Lemma row_nulls_bound input j : 0 ≤ row_nulls input j ≤ num_columns input.
Proof.
  unfold row_nulls.
  pose proof (length_filter (λ i, is_valid (get_column input i) j = false)
                (seqZ 0 (num_columns input))) as Hle.
  rewrite length_seqZ in Hle. unfold num_columns in *. lia.
Qed.

Lemma transposed_null_counts uninit input :
  valid_input input → has_nulls input = true →
  null_count <$> transposed uninit input = row_nulls input <$> seqZ 0 (num_rows input).
Proof.
  intros Hv Hn. apply list_eq. intros n. rewrite !list_lookup_fmap.
  destruct (decide (Z.of_nat n < num_rows input)) as [Hlt|Hge].
  - rewrite lookup_seqZ_lt by done. simpl.
    pose proof (transposed_null_count uninit input (Z.of_nat n) Hv Hn ltac:(lia)) as Hc.
    unfold get_column in Hc. rewrite Nat2Z.id in Hc.
    destruct (transposed uninit input !! n) as [c|] eqn:Hl; simpl in *; [by rewrite Hc|].
    apply lookup_ge_None_1 in Hl. rewrite length_transposed in Hl. lia.
  - rewrite lookup_seqZ_ge by lia.
    rewrite (lookup_ge_None_2 (transposed uninit input)); [done|].
    rewrite length_transposed. lia.
Qed.

(** C3 (null conservation and exactness).  For a valid input table with
    nulls, the null count recorded on output column [j] is the number of
    null elements in row [j] of the input, and the null counts of all
    output columns add up to the number of null elements of the input. *)
Theorem transpose_null_counts_exact fuel uninit input :
  valid_input input → has_nulls input = true → enough_fuel fuel input →
  ∃ out,
    transpose fuel uninit input = (transpose_events input, Ok out) ∧
    (∀ j, 0 ≤ j < num_rows input → null_count (get_column out j) = row_nulls input j) ∧
    sumZ (null_count <$> out) = table_nulls input.
Proof.
  intros Hv Hn Hf. exists (transposed uninit input). split; [by apply transpose_run|].
  split; [intros; by apply transposed_null_count|].
  unfold table_nulls. by rewrite transposed_null_counts.
Qed.

Lemma transpose_null_counts_exact_witness :
  ∃ out,
    transpose 4 example_uninit example_table = (transpose_events example_table, Ok out) ∧
    (∀ j, 0 ≤ j < num_rows example_table →
          null_count (get_column out j) = row_nulls example_table j) ∧
    sumZ (null_count <$> out) = table_nulls example_table.
Proof.
  apply (transpose_null_counts_exact 4 example_uninit example_table).
  - solve_example_valid.
  - reflexivity.
  - solve_example_fuel.
Defined.

Lemma elem_of_transposed {B : Type} (f : column → B) uninit input c :
  (∀ i v c, f (set_element i v c) = f c) →
  (has_nulls input = true → ∀ w v c, f (set_mask_word w v c) = f c) →
  (has_nulls input = true → ∀ n c, f (set_null_count n c) = f c) →
  c ∈ transposed uninit input →
  ∃ j, f c = f (allocate_like (uninit j) (get_column input 0) (num_columns input)
                  (if has_nulls input then ALWAYS else NEVER)).
Proof.
  intros H1 H2 H3 Hc.
  assert (f c ∈ f <$> allocated uninit input) as Hin.
  { assert (f <$> transposed uninit input = f <$> allocated uninit input) as <-.
    { unfold transposed. destruct (has_nulls input).
      - by rewrite fmap_set_null_counts, fmap_word_stores, fmap_stores by auto.
      - by rewrite fmap_stores. }
    by apply list_elem_of_fmap_2. }
  unfold allocated in Hin. rewrite <- list_fmap_compose in Hin.
  apply list_elem_of_fmap in Hin as (j & Heq & _). by exists j.
Qed.

(** C4 (mask-policy uniformity).  For a valid input table, when no input
    column has nulls no output column carries a validity mask and every
    output null count is 0; when some input column has nulls every output
    column carries a validity mask, whatever its own null count.  (The
    output has one column per input row.) *)
Theorem transpose_mask_policy_uniform fuel uninit input :
  valid_input input → enough_fuel fuel input →
  ∃ out,
    transpose fuel uninit input = (transpose_events input, Ok out) ∧
    num_columns out = num_rows input ∧
    (has_nulls input = false → ∀ c, c ∈ out → null_mask c = None ∧ null_count c = 0) ∧
    (has_nulls input = true → ∀ c, c ∈ out → is_Some (null_mask c)).
Proof.
  intros Hv Hf. exists (transposed uninit input). split; [by apply transpose_run|].
  split; [apply num_columns_transposed; destruct Hv; lia|]. split.
  - intros Hn c Hc.
    destruct (elem_of_transposed (λ c, (null_mask c, null_count c)) uninit input c)
      as [j Hj]; try done; try congruence.
    rewrite Hn in Hj. simpl in Hj. by injection Hj as -> ->.
  - intros Hn c Hc.
    destruct (elem_of_transposed (λ c, from_option (λ _, true) false (null_mask c))
                uninit input c) as [j Hj]; try done.
    + intros _ ? ? c'. simpl. by destruct (null_mask c').
    + rewrite Hn in Hj. simpl in Hj. destruct (null_mask c); [by eexists|done].
Qed.

Lemma transpose_mask_policy_uniform_witness :
  ∃ out,
    transpose 4 example_uninit example_table = (transpose_events example_table, Ok out) ∧
    num_columns out = num_rows example_table ∧
    (has_nulls example_table = false →
       ∀ c, c ∈ out → null_mask c = None ∧ null_count c = 0) ∧
    (has_nulls example_table = true → ∀ c, c ∈ out → is_Some (null_mask c)).
Proof.
  apply (transpose_mask_policy_uniform 4 example_uninit example_table).
  - solve_example_valid.
  - solve_example_fuel.
Defined.

Lemma band_nulls_bound input i j :
  0 ≤ band_nulls input i j ≤ Z.of_nat (length (band (num_columns input) i)).
Proof.
  rewrite band_nulls_band.
  pose proof (length_filter (λ c, is_valid (get_column input c) j = false)
                (band (num_columns input) i)). lia.
Qed.

(** C10 (padding bits).  In every mask word written by the validity
    kernel, a bit whose lane stands for no input column (column index at
    or beyond the column count) is 0.  The first lane of a warp adds
    [popc(active_threads) - popc(result)], which is the number of null
    elements among the input columns of the band and does not count those
    lanes; so the null count of an output column is the number of nulls of
    its row and never exceeds the number of input columns. *)
Theorem transpose_padding_bits fuel uninit input :
  valid_input input → has_nulls input = true → enough_fuel fuel input →
  ∃ out,
    transpose fuel uninit input = (transpose_events input, Ok out) ∧
    (∀ j k lane, 0 ≤ j < num_rows input → 0 ≤ k → WARP_SIZE * k < num_columns input →
                 0 ≤ lane < WARP_SIZE → num_columns input ≤ WARP_SIZE * k + lane →
                 Z.testbit (mask_word out j k) lane = false) ∧
    (∀ t i j st, threadIdx_x t mod WARP_SIZE = 0 →
                 vs_null_count (valids_body input t i (full_active input i) j st) =
                   atomicAdd j (band_nulls input i j) (vs_null_count st) ∧
                 0 ≤ band_nulls input i j ≤ Z.of_nat (length (band (num_columns input) i))) ∧
    (∀ j, 0 ≤ j < num_rows input →
          null_count (get_column out j) = row_nulls input j ∧
          0 ≤ null_count (get_column out j) ≤ num_columns input).
Proof.
  intros Hv Hn Hf. exists (transposed uninit input). split; [by apply transpose_run|].
  split; [|split].
  - intros j k lane Hj Hk Hlt Hl Hpad.
    rewrite transposed_mask_word, band_word_spec by done.
    rewrite bool_decide_eq_false_2 by lia. done.
  - intros t i j st Ht. split; [|apply band_nulls_bound].
    by rewrite valids_body_store.
  - intros j Hj. rewrite transposed_null_count by done.
    split; [done|apply row_nulls_bound].
Qed.

Lemma transpose_padding_bits_witness :
  ∃ out,
    transpose 4 example_uninit example_table = (transpose_events example_table, Ok out) ∧
    (∀ j k lane, 0 ≤ j < num_rows example_table → 0 ≤ k →
                 WARP_SIZE * k < num_columns example_table →
                 0 ≤ lane < WARP_SIZE → num_columns example_table ≤ WARP_SIZE * k + lane →
                 Z.testbit (mask_word out j k) lane = false) ∧
    (∀ t i j st, threadIdx_x t mod WARP_SIZE = 0 →
                 vs_null_count (valids_body example_table t i
                                  (full_active example_table i) j st) =
                   atomicAdd j (band_nulls example_table i j) (vs_null_count st) ∧
                 0 ≤ band_nulls example_table i j ≤
                   Z.of_nat (length (band (num_columns example_table) i))) ∧
    (∀ j, 0 ≤ j < num_rows example_table →
          null_count (get_column out j) = row_nulls example_table j ∧
          0 ≤ null_count (get_column out j) ≤ num_columns example_table).
Proof.
  apply (transpose_padding_bits 4 example_uninit example_table).
  - solve_example_valid.
  - reflexivity.
  - solve_example_fuel.
Defined.

(** ** Round trip *)

Lemma transposed_valid uninit input :
  valid_input input → valid_input (transposed uninit input).
Proof.
  intros Hv. pose proof Hv as [Hc Hr Ht Hfix [Hfc Hfr]].
  assert (num_columns (transposed uninit input) = num_rows input) as Hnc
    by (apply num_columns_transposed; lia).
  assert (num_rows (transposed uninit input) = num_columns input) as Hnr.
  { rewrite num_rows_get_column.
    by destruct (transposed_column_shape uninit input 0 ltac:(lia)) as (_ & -> & _). }
  assert (type (get_column (transposed uninit input) 0) = type (get_column input 0)) as Hty.
  { by destruct (transposed_column_shape uninit input 0 ltac:(lia)) as (-> & _). }
  split; rewrite ?Hnc, ?Hnr, ?Hty; try done.
  - apply forallb_forall. intros c Hc'%list_elem_of_In. apply bool_decide_eq_true_2.
    destruct (elem_of_transposed type uninit input c) as [j Hj]; try done.
  - split; by rewrite ?Hnc, ?Hnr.
Qed.

Lemma enough_fuel_transposed fuel uninit input :
  valid_input input → enough_fuel fuel input → enough_fuel fuel (transposed uninit input).
Proof.
  intros Hv [Hfc Hfr]. pose proof (transposed_valid uninit input Hv) as [_ _ _ _ _].
  pose proof Hv as [Hc Hr _ _ _].
  assert (num_columns (transposed uninit input) = num_rows input) as Hnc
    by (apply num_columns_transposed; lia).
  assert (num_rows (transposed uninit input) = num_columns input) as Hnr.
  { rewrite num_rows_get_column.
    by destruct (transposed_column_shape uninit input 0 ltac:(lia)) as (_ & -> & _). }
  split; rewrite ?Hnc, ?Hnr; lia.
Qed.

(** C5 as stated fails on a table without rows: one [INT32] column of zero
    rows is transposed to the table without columns, and transposing that
    again does not bring the column back. *)
Lemma transpose_round_trip_zero_rows :
  ∃ out1 out2,
    transpose 1 example_uninit zero_row_table = ([], Ok out1) ∧
    transpose 1 example_uninit out1 = ([], Ok out2) ∧
    num_columns zero_row_table = 1 ∧ num_columns out2 = 0 ∧
    num_columns out2 ≠ num_columns zero_row_table.
Proof. exists [], []. repeat split. by vm_compute. Qed.

(** C5 (round trip), amended.  For a valid table with at least one column
    and one row, transposing twice succeeds and gives a table with the
    column count, the row count and the element values of the original. *)
Theorem transpose_round_trip fuel uninit1 uninit2 input :
  valid_input input → enough_fuel fuel input →
  ∃ out1 out2,
    transpose fuel uninit1 input = (transpose_events input, Ok out1) ∧
    transpose fuel uninit2 out1 = (transpose_events out1, Ok out2) ∧
    num_columns out2 = num_columns input ∧ num_rows out2 = num_rows input ∧
    ∀ i j, 0 ≤ i < num_columns input → 0 ≤ j < num_rows input →
           element (get_column out2 i) j = element (get_column input i) j.
Proof.
  intros Hv Hf.
  pose proof (transposed_valid uninit1 input Hv) as Hv1.
  pose proof (enough_fuel_transposed fuel uninit1 input Hv Hf) as Hf1.
  pose proof Hv as [Hc Hr _ _ _].
  assert (num_columns (transposed uninit1 input) = num_rows input) as Hnc
    by (apply num_columns_transposed; lia).
  assert (num_rows (transposed uninit1 input) = num_columns input) as Hnr.
  { rewrite num_rows_get_column.
    by destruct (transposed_column_shape uninit1 input 0 ltac:(lia)) as (_ & -> & _). }
  exists (transposed uninit1 input), (transposed uninit2 (transposed uninit1 input)).
  split; [by apply transpose_run|]. split; [by apply transpose_run|].
  split; [|split].
  - rewrite num_columns_transposed; lia.
  - rewrite num_rows_get_column.
    destruct (transposed_column_shape uninit2 (transposed uninit1 input) 0 ltac:(lia))
      as (_ & -> & _). done.
  - intros i j Hi Hj. rewrite transposed_element by (done || lia).
    by apply transposed_element.
Qed.

Lemma transpose_round_trip_witness :
  ∃ out1 out2,
    transpose 4 example_uninit example_table = (transpose_events example_table, Ok out1) ∧
    transpose 4 example_uninit out1 = (transpose_events out1, Ok out2) ∧
    num_columns out2 = num_columns example_table ∧
    num_rows out2 = num_rows example_table ∧
    ∀ i j, 0 ≤ i < num_columns example_table → 0 ≤ j < num_rows example_table →
           element (get_column out2 i) j = element (get_column example_table i) j.
Proof.
  apply (transpose_round_trip 4 example_uninit example_uninit example_table).
  - solve_example_valid.
  - solve_example_fuel.
Defined.

(** * Degenerate input and failures *)

(** C6 (degenerate input).  On a table without columns or without rows
    [transpose] returns the empty table (no column, no row), makes no
    device request and raises no error. *)
Theorem transpose_degenerate fuel uninit input :
  num_columns input = 0 ∨ num_rows input = 0 →
  ∃ out,
    transpose fuel uninit input = ([], Ok out) ∧ num_columns out = 0 ∧ num_rows out = 0.
Proof.
  intros Hd. exists []. unfold transpose. by rewrite decide_True.
Qed.

Lemma transpose_degenerate_witness :
  ∃ out,
    transpose 0 example_uninit zero_row_table = ([], Ok out) ∧
    num_columns out = 0 ∧ num_rows out = 0.
Proof.
  apply (transpose_degenerate 0 example_uninit zero_row_table).
  right. reflexivity.
Defined.

(** C7 (precondition failures).  On a table with columns and rows,
    [transpose] throws the "Column type mismatch" error when some column
    has another type than the first, and the "non-fixed-width type" error
    when all columns have one type that is not fixed-width; in both cases
    no output column has been allocated and no kernel launched, and no
    table is returned. *)
Theorem transpose_precondition_failures fuel uninit input :
  num_columns input ≠ 0 → num_rows input ≠ 0 →
  ((∃ c, c ∈ input ∧ type c ≠ type (get_column input 0)) →
     transpose fuel uninit input = ([], Throw TypeMismatch)) ∧
  ((∀ c, c ∈ input → type c = type (get_column input 0)) →
     is_fixed_width (type (get_column input 0)) = false →
     transpose fuel uninit input = ([], Throw UnsupportedType)).
Proof.
  intros Hc Hr. unfold transpose. rewrite decide_False by tauto. split.
  - intros (c & Hin & Hty).
    assert (forallb (λ col, bool_decide (type (get_column input 0) = type col)) input
            = false) as ->; [|done].
    apply not_true_is_false. intros Hall. apply Hty. symmetry.
    eapply bool_decide_eq_true_1. eapply forallb_forall in Hall; [done|].
    by apply list_elem_of_In.
  - intros Hall Hfix.
    assert (forallb (λ col, bool_decide (type (get_column input 0) = type col)) input
            = true) as ->.
    { apply forallb_forall. intros c Hin%list_elem_of_In.
      apply bool_decide_eq_true_2. symmetry. by apply Hall. }
    by rewrite Hfix.
Qed.

Lemma transpose_precondition_failures_witness :
  transpose 0 example_uninit mixed_table = ([], Throw TypeMismatch) ∧
  transpose 0 example_uninit string_table = ([], Throw UnsupportedType).
Proof.
  split.
  - apply (transpose_precondition_failures 0 example_uninit mixed_table);
      [vm_compute; discriminate..|].
    exists (mk_column FLOAT64 2 [3; 4] None 0 0). split; [|simpl; discriminate].
    apply list_elem_of_further, list_elem_of_here.
  - apply (transpose_precondition_failures 0 example_uninit string_table);
      [vm_compute; discriminate..| |reflexivity].
    intros c Hin. apply list_elem_of_singleton in Hin. rewrite Hin. reflexivity.
Defined.

(** * [mask_to_bools] *)

(** C8 (degenerate and error cases of the unpacker).  With [length = 0]
    the result is an empty column whatever the mask pointer and the offset
    are, and the mask is read at no index; with [length > 0] and a null
    mask pointer the call throws the "nullmask is null" error. *)
Theorem mask_to_bools_degenerate (bitmask : option (list bitmask_type)) (offset length : Z) :
  (∃ r, mask_to_bools bitmask offset 0 = Ok r ∧
        type (out_col r) = BOOL8 ∧ size (out_col r) = 0 ∧ data (out_col r) = [] ∧
        derefs r = []) ∧
  (0 < length → mask_to_bools None offset length = Throw InvalidArgument).
Proof.
  split.
  - eexists. unfold mask_to_bools. rewrite decide_True by done. done.
  - intros Hl. unfold mask_to_bools. by rewrite decide_False by lia.
Qed.

Lemma mask_to_bools_degenerate_witness :
  (∃ r, mask_to_bools None 7 0 = Ok r ∧
        type (out_col r) = BOOL8 ∧ size (out_col r) = 0 ∧ data (out_col r) = [] ∧
        derefs r = []) ∧
  mask_to_bools None 7 3 = Throw InvalidArgument.
Proof.
  split.
  - apply (mask_to_bools_degenerate None 7 3).
  - apply (mask_to_bools_degenerate None 7 3). reflexivity.
Defined.

(** C9 (unpacker correctness).  With a mask and [length > 0] the result is
    a new [BOOL8] column of [length] rows without a validity mask, whose
    element [k] is 1 when bit [offset + k] of the mask is set and 0
    otherwise; when all the bits [offset .. offset + length - 1] are set,
    the column holds [length] true values. *)
Theorem mask_to_bools_correct (bits : list bitmask_type) (offset length : Z) :
  0 < length →
  ∃ r, mask_to_bools (Some bits) offset length = Ok r ∧
       type (out_col r) = BOOL8 ∧ size (out_col r) = length ∧
       Z.of_nat (List.length (data (out_col r))) = length ∧
       null_mask (out_col r) = None ∧ null_count (out_col r) = 0 ∧
       (∀ k, 0 ≤ k < length →
             element (out_col r) k = of_bool (bit_is_set bits (offset + k))) ∧
       ((∀ k, 0 ≤ k < length → bit_is_set bits (offset + k) = true) →
        data (out_col r) = replicate (Z.to_nat length) 1).
Proof.
  intros Hl. eexists. unfold mask_to_bools. rewrite decide_False by lia.
  split; [done|]. simpl. repeat split.
  - rewrite length_fmap, length_seqZ. lia.
  - intros k Hk. unfold element. simpl.
    rewrite list_lookup_fmap, lookup_seqZ_lt by lia. simpl.
    do 3 f_equal. lia.
  - intros Hall. apply list_eq. intros n. rewrite list_lookup_fmap.
    destruct (decide (Z.of_nat n < length)) as [Hlt|Hge].
    + rewrite lookup_seqZ_lt, lookup_replicate_2 by lia. simpl.
      by rewrite Hall by lia.
    + rewrite lookup_seqZ_ge by lia. symmetry. apply lookup_replicate_None. lia.
Qed.

Lemma mask_to_bools_correct_witness :
  ∃ r, mask_to_bools (Some [13]) 1 3 = Ok r ∧
       type (out_col r) = BOOL8 ∧ size (out_col r) = 3 ∧
       Z.of_nat (List.length (data (out_col r))) = 3 ∧
       null_mask (out_col r) = None ∧ null_count (out_col r) = 0 ∧
       (∀ k, 0 ≤ k < 3 → element (out_col r) k = of_bool (bit_is_set [13] (1 + k))) ∧
       ((∀ k, 0 ≤ k < 3 → bit_is_set [13] (1 + k) = true) →
        data (out_col r) = replicate (Z.to_nat 3) 1).
Proof.
  apply (mask_to_bools_correct [13] 1 3). reflexivity.
Defined.

(** * The kernels on any launch geometry and in any thread order *)

Lemma output_ready_slot input output i j :
  output_ready input output → 0 ≤ i < num_columns input → 0 ≤ j < num_rows input →
  slot_ok output j i.
Proof.
  intros [Hlen Hall] Hi Hj.
  destruct (lookup_lt_is_Some_2 output (Z.to_nat j)) as [c Hc]; [lia|].
  exists c. split; [done|]. eapply Forall_lookup_1 in Hall; [|done]. simpl in Hall. lia.
Qed.

Lemma value_kernel_run_sched fuel gridDim blockDim input output sched :
  geometry gridDim blockDim input → enough_fuel fuel input →
  sched ≡ₚ grid_threads gridDim blockDim →
  run_all (gpu_transpose fuel gridDim blockDim input) sched output =
    Some (foldl (store_cell input) output (sched ≫= thread_cells gridDim blockDim input)).
Proof.
  intros Hg Hf Hp. apply run_all_flatten. intros t s Ht.
  apply gpu_transpose_run; [done..|]. by rewrite <- Hp.
Qed.

(** The value kernel transposes the elements for every launch geometry with
    positive dimensions and in every order in which the threads of the
    grid run, also when the grid is smaller than the table. *)
Theorem gpu_transpose_any_geometry fuel gridDim blockDim input output sched :
  geometry gridDim blockDim input → enough_fuel fuel input →
  sched ≡ₚ grid_threads gridDim blockDim → output_ready input output →
  ∃ out,
    run_all (gpu_transpose fuel gridDim blockDim input) sched output = Some out ∧
    ∀ i j, 0 ≤ i < num_columns input → 0 ≤ j < num_rows input →
           element (get_column out j) i = element (get_column input i) j.
Proof.
  intros Hg Hf Hp Hr. eexists. split; [by apply value_kernel_run_sched|].
  - intros i j Hi Hj.
    assert (∀ c, c ∈ sched ≫= thread_cells gridDim blockDim input ↔
                 c ∈ grid_threads gridDim blockDim ≫= thread_cells gridDim blockDim input)
      as Hmem by (intros c; by rewrite Hp).
    apply element_stores; try lia.
    + apply Forall_forall. intros [i' j'] Hin%Hmem%elem_of_stores; [simpl; lia|done].
    + by eapply output_ready_slot.
    + left. apply Hmem. by apply elem_of_stores.
Qed.

Lemma gpu_transpose_any_geometry_witness :
  ∃ out,
    run_all (gpu_transpose 4 small_grid small_block example_table)
            (reverse (grid_threads small_grid small_block))
            (allocated example_uninit example_table) = Some out ∧
    ∀ i j, 0 ≤ i < num_columns example_table → 0 ≤ j < num_rows example_table →
           element (get_column out j) i = element (get_column example_table i) j.
Proof.
  apply (gpu_transpose_any_geometry 4 small_grid small_block example_table).
  - split; vm_compute; (reflexivity || discriminate).
  - solve_example_fuel.
  - apply reverse_Permutation.
  - split; [reflexivity|]. repeat constructor; vm_compute; discriminate.
Defined.

(** The value kernel writes payload only: types, sizes, masks, null counts,
    offsets and payload lengths of the output columns are as before the
    launch, and no column is added or removed. *)
Theorem gpu_transpose_frame fuel gridDim blockDim input output sched out :
  geometry gridDim blockDim input → enough_fuel fuel input →
  sched ≡ₚ grid_threads gridDim blockDim →
  run_all (gpu_transpose fuel gridDim blockDim input) sched output = Some out →
  length out = length output ∧
  ∀ j, let c := get_column out j in let c0 := get_column output j in
       type c = type c0 ∧ size c = size c0 ∧ null_mask c = null_mask c0 ∧
       null_count c = null_count c0 ∧ offset c = offset c0 ∧
       length (data c) = length (data c0).
Proof.
  intros Hg Hf Hp Hrun.
  rewrite value_kernel_run_sched in Hrun by done.
  injection Hrun as <-. split.
  - rewrite <- (length_fmap type), fmap_stores, length_fmap; done.
  - intros j.
    pose (frame := λ c : column, (type c, size c, null_mask c, null_count c, offset c,
                                   length (data c))).
    assert (frame (get_column (foldl (store_cell input) output
                                 (sched ≫= thread_cells gridDim blockDim input)) j) =
            frame (get_column output j)) as Hfr.
    { apply fmap_eq_get_column, fmap_stores. intros. unfold frame. simpl.
      by rewrite length_insert. }
    unfold frame in Hfr. simpl. by injection Hfr as -> -> -> -> -> ->.
Qed.

Lemma gpu_transpose_frame_witness :
  length (transposed example_uninit mixed_table) =
    length (allocated example_uninit mixed_table) ∧
  ∀ j, let c := get_column (transposed example_uninit mixed_table) j in
       let c0 := get_column (allocated example_uninit mixed_table) j in
       type c = type c0 ∧ size c = size c0 ∧ null_mask c = null_mask c0 ∧
       null_count c = null_count c0 ∧ offset c = offset c0 ∧
       length (data c) = length (data c0).
Proof.
  apply (gpu_transpose_frame 3 (dimGrid mixed_table) dimBlock mixed_table
           (allocated example_uninit mixed_table)
           (grid_threads (dimGrid mixed_table) dimBlock)).
  - split; vm_compute; (reflexivity || discriminate).
  - split; vm_compute; reflexivity.
  - reflexivity.
  - apply value_kernel_run.
    + split; vm_compute; (reflexivity || discriminate).
    + split; vm_compute; reflexivity.
Defined.

Lemma valids_kernel_run_sched fuel gridDim input st sched :
  geometry gridDim dimBlock input → enough_fuel fuel input →
  sched ≡ₚ grid_warps gridDim dimBlock →
  run_all (gpu_transpose_valids fuel gridDim dimBlock input) sched st =
    Some (foldl (valids_store input) st (sched ≫= thread_cells gridDim dimBlock input)).
Proof.
  intros Hg Hf Hp. apply run_all_flatten. intros t s Ht.
  apply gpu_transpose_valids_run; [done..|]. by rewrite <- Hp.
Qed.

Lemma masks_ready_word input output j k :
  masks_ready input output → 0 ≤ j < num_rows input →
  0 ≤ k → WARP_SIZE * k < num_columns input → word_ok output j k.
Proof.
  intros [Hlen Hall] Hj Hk Hlt.
  destruct (lookup_lt_is_Some_2 output (Z.to_nat j)) as [c Hc]; [lia|].
  eapply Forall_lookup_1 in Hall; [|done]. destruct Hall as (m & Hm & Hwords).
  exists c, m. split; [done|]. split; [done|].
  pose proof (num_bitmask_words_bound (num_columns input) k Hk Hlt). lia.
Qed.

(** The validity kernel, for every grid of 32 x 32 blocks and in every
    order in which the warps run: afterwards bit [i] of the mask of output
    column [j] tells whether element [j] of input column [i] is valid, and
    null count slot [j] has grown by the number of nulls in input row [j]. *)
Theorem gpu_transpose_valids_any_geometry fuel gridDim input st sched :
  geometry gridDim dimBlock input → enough_fuel fuel input →
  sched ≡ₚ grid_warps gridDim dimBlock →
  masks_ready input (vs_output st) →
  length (vs_null_count st) = Z.to_nat (num_rows input) →
  ∃ st',
    run_all (gpu_transpose_valids fuel gridDim dimBlock input) sched st = Some st' ∧
    (∀ i j, 0 ≤ i < num_columns input → 0 ≤ j < num_rows input →
            Z.testbit (mask_word (vs_output st') j (word_index i)) (intra_word_index i) =
              is_valid (get_column input i) j) ∧
    (∀ j, 0 ≤ j < num_rows input →
          count_at (vs_null_count st') j = count_at (vs_null_count st) j + row_nulls input j).
Proof.
  intros Hg Hf Hp Hm Hlen. eexists. split; [by apply valids_kernel_run_sched|].
  set (W := sched ≫= thread_cells gridDim dimBlock input).
  assert (W ≡ₚ grid_warps gridDim dimBlock ≫= thread_cells gridDim dimBlock input) as HW
    by (unfold W; by rewrite Hp).
  assert (∀ i j, (i, j) ∈ W ↔
            (0 ≤ i < num_columns input ∧ i mod WARP_SIZE = 0) ∧ 0 ≤ j < num_rows input)
    as Hmem.
  { intros i j. rewrite HW. by apply (elem_of_warp_stores gridDim dimBlock). }
  assert (NoDup W) as Hnd.
  { rewrite HW. apply NoDup_stores; [done|apply NoDup_grid_warps|].
    intros t. by apply grid_warps_threads. }
  split.
  - intros i j Hi Hj. rewrite vs_output_stores. unfold word_index, intra_word_index.
    pose proof (Z.div_mod i 32 ltac:(lia)) as Hdm.
    pose proof (Z.mod_pos_bound i 32 ltac:(lia)) as Hmod.
    assert (0 ≤ i / 32) as Hq by (apply Z.div_pos; lia).
    assert ((WARP_SIZE * (i / 32)) mod WARP_SIZE = 0) as Hz.
    { rewrite Z.mul_comm. apply Z.mod_mul. by unfold WARP_SIZE. }
    rewrite mask_word_stores; try lia.
    + rewrite band_word_spec. unfold WARP_SIZE. rewrite <- Hdm.
      by rewrite bool_decide_eq_true_2 by lia.
    + apply Forall_forall. intros [i' j'] Hin%Hmem. simpl. lia.
    + apply (masks_ready_word input); try done. unfold WARP_SIZE. lia.
    + left. apply Hmem. unfold WARP_SIZE in *. lia.
  - intros j Hj. rewrite vs_null_count_stores, count_at_stores; try lia.
    + f_equal. rewrite (row_stores_bands _ (num_columns input) (num_rows input)) by done.
      rewrite <- list_fmap_compose. exact (sum_band_nulls input j).
    + apply Forall_forall. intros [i' j'] Hin%Hmem. simpl. lia.
Qed.

Lemma gpu_transpose_valids_any_geometry_witness :
  ∃ st',
    run_all (gpu_transpose_valids 4 one_block dimBlock example_table)
            (reverse (grid_warps one_block dimBlock))
            (mk_valids_state (allocated example_uninit example_table) [10; 20; 30])
      = Some st' ∧
    (∀ i j, 0 ≤ i < num_columns example_table → 0 ≤ j < num_rows example_table →
            Z.testbit (mask_word (vs_output st') j (word_index i)) (intra_word_index i) =
              is_valid (get_column example_table i) j) ∧
    (∀ j, 0 ≤ j < num_rows example_table →
          count_at (vs_null_count st') j =
            count_at [10; 20; 30] j + row_nulls example_table j).
Proof.
  apply (gpu_transpose_valids_any_geometry 4 one_block example_table
           (mk_valids_state (allocated example_uninit example_table) [10; 20; 30])).
  - split; vm_compute; (reflexivity || discriminate).
  - solve_example_fuel.
  - apply reverse_Permutation.
  - split; [reflexivity|].
    repeat constructor; eexists; (split; [reflexivity|vm_compute; discriminate]).
  - reflexivity.
Defined.

(** The validity kernel writes mask words and null counts only: payload,
    types, sizes, offsets and recorded null counts of the output columns
    are as before the launch, masks are neither added nor removed nor
    resized, and the device array of null counts keeps its length. *)
Theorem gpu_transpose_valids_frame fuel gridDim input st sched st' :
  geometry gridDim dimBlock input → enough_fuel fuel input →
  sched ≡ₚ grid_warps gridDim dimBlock →
  run_all (gpu_transpose_valids fuel gridDim dimBlock input) sched st = Some st' →
  length (vs_output st') = length (vs_output st) ∧
  length (vs_null_count st') = length (vs_null_count st) ∧
  ∀ j, let c := get_column (vs_output st') j in let c0 := get_column (vs_output st) j in
       type c = type c0 ∧ size c = size c0 ∧ data c = data c0 ∧
       null_count c = null_count c0 ∧ offset c = offset c0 ∧
       length <$> null_mask c = length <$> null_mask c0.
Proof.
  intros Hg Hf Hp Hrun. rewrite valids_kernel_run_sched in Hrun by done.
  injection Hrun as <-. rewrite vs_output_stores, vs_null_count_stores.
  split; [|split].
  - rewrite <- (length_fmap type), fmap_word_stores, length_fmap; done.
  - apply length_add_nulls.
  - intros j.
    pose (frame := λ c : column, (type c, size c, data c, null_count c, offset c,
                                   length <$> null_mask c)).
    assert (frame (get_column (foldl (store_word input) (vs_output st)
                                 (sched ≫= thread_cells gridDim dimBlock input)) j) =
            frame (get_column (vs_output st) j)) as Hfr.
    { apply fmap_eq_get_column, fmap_word_stores. intros w v c. unfold frame. simpl.
      destruct (null_mask c); simpl; [|done]. by rewrite length_insert. }
    unfold frame in Hfr. simpl. by injection Hfr as -> -> -> -> -> ->.
Qed.

Lemma gpu_transpose_valids_frame_witness :
  let st := mk_valids_state (allocated example_uninit example_table) [0; 0; 0] in
  let st' := foldl (valids_store example_table) st (valids_stores example_table) in
  length (vs_output st') = length (vs_output st) ∧
  length (vs_null_count st') = length (vs_null_count st) ∧
  ∀ j, let c := get_column (vs_output st') j in let c0 := get_column (vs_output st) j in
       type c = type c0 ∧ size c = size c0 ∧ data c = data c0 ∧
       null_count c = null_count c0 ∧ offset c = offset c0 ∧
       length <$> null_mask c = length <$> null_mask c0.
Proof.
  intros st st'.
  apply (gpu_transpose_valids_frame 4 (dimGrid example_table) example_table st
           (grid_warps (dimGrid example_table) dimBlock)).
  - split; vm_compute; (reflexivity || discriminate).
  - solve_example_fuel.
  - reflexivity.
  - apply valids_kernel_run.
    + split; vm_compute; (reflexivity || discriminate).
    + solve_example_fuel.
Defined.

(** * The launch configuration and the device requests *)

(** On a table with columns and rows the grid has between 1 and
    [MAX_GRID_SIZE] blocks in each dimension; when a dimension of the table
    is at most [WARP_SIZE * MAX_GRID_SIZE], the threads of the grid cover
    it in one pass, with less than one block to spare. *)
Theorem launch_grid_bounds input :
  0 < num_columns input → 0 < num_rows input →
  (1 ≤ dim_x (dimGrid input) ≤ MAX_GRID_SIZE ∧ 1 ≤ dim_y (dimGrid input) ≤ MAX_GRID_SIZE) ∧
  (num_columns input ≤ WARP_SIZE * MAX_GRID_SIZE →
     num_columns input ≤ dim_x dimBlock * dim_x (dimGrid input) < num_columns input + WARP_SIZE) ∧
  (num_rows input ≤ WARP_SIZE * MAX_GRID_SIZE →
     num_rows input ≤ dim_y dimBlock * dim_y (dimGrid input) < num_rows input + WARP_SIZE).
Proof.
  intros Hc Hr.
  pose proof (div_rounding_up_safe_pos _ Hc) as Hpc.
  pose proof (div_rounding_up_safe_pos _ Hr) as Hpr.
  assert (∀ n, 0 < n → n ≤ 32 * div_rounding_up_safe n 32 < n + 32) as Hup.
  { intros n Hn. unfold div_rounding_up_safe.
    pose proof (Z.div_mod n 32 ltac:(lia)). pose proof (Z.mod_pos_bound n 32 ltac:(lia)).
    case_decide; lia. }
  pose proof (Hup _ Hc). pose proof (Hup _ Hr).
  unfold dimGrid, dimBlock, WARP_SIZE, MAX_GRID_SIZE in *. simpl. lia.
Qed.

Lemma launch_grid_bounds_witness :
  (1 ≤ dim_x (dimGrid example_table) ≤ MAX_GRID_SIZE ∧
   1 ≤ dim_y (dimGrid example_table) ≤ MAX_GRID_SIZE) ∧
  (num_columns example_table ≤ WARP_SIZE * MAX_GRID_SIZE →
     num_columns example_table ≤ dim_x dimBlock * dim_x (dimGrid example_table)
       < num_columns example_table + WARP_SIZE) ∧
  (num_rows example_table ≤ WARP_SIZE * MAX_GRID_SIZE →
     num_rows example_table ≤ dim_y dimBlock * dim_y (dimGrid example_table)
       < num_rows example_table + WARP_SIZE).
Proof. apply (launch_grid_bounds example_table); reflexivity. Defined.

(** On valid input [transpose] allocates one output column per input row,
    then launches the value kernel; the validity kernel, the copy of the
    null counts and the synchronisation follow exactly when the input has
    nulls. *)
Theorem transpose_device_requests fuel uninit input :
  valid_input input → enough_fuel fuel input →
  (transpose fuel uninit input).1 =
    (Allocate <$> seqZ 0 (num_rows input)) ++
    Launch_gpu_transpose (dimGrid input) dimBlock ::
    (if has_nulls input
     then [Launch_gpu_transpose_valids (dimGrid input) dimBlock; Copy_null_counts;
           Synchronize]
     else []).
Proof.
  intros Hv Hf. rewrite transpose_run by done. simpl. unfold transpose_events. f_equal.
  unfold launch_events. f_equal. destruct Hv as [_ Hr _ _ _].
  destruct (has_nulls input); [|done].
  destruct (Z.to_nat (num_rows input)) eqn:E; [lia|done].
Qed.

Lemma transpose_device_requests_witness :
  (transpose 4 example_uninit example_table).1 =
    (Allocate <$> seqZ 0 (num_rows example_table)) ++
    Launch_gpu_transpose (dimGrid example_table) dimBlock ::
    (if has_nulls example_table
     then [Launch_gpu_transpose_valids (dimGrid example_table) dimBlock; Copy_null_counts;
           Synchronize]
     else []).
Proof.
  apply (transpose_device_requests 4 example_uninit example_table).
  - solve_example_valid.
  - solve_example_fuel.
Defined.

(** On valid input the result has one column per input row; every output
    column has the element type of the input, one row per input column,
    offset 0 and a payload of that many elements. *)
Theorem transpose_output_shape fuel uninit input :
  valid_input input → enough_fuel fuel input →
  ∃ out,
    transpose fuel uninit input = (transpose_events input, Ok out) ∧
    num_columns out = num_rows input ∧ num_rows out = num_columns input ∧
    ∀ j, 0 ≤ j < num_rows input →
         type (get_column out j) = type (get_column input 0) ∧
         size (get_column out j) = num_columns input ∧
         offset (get_column out j) = 0 ∧
         Z.of_nat (length (data (get_column out j))) = num_columns input.
Proof.
  intros Hv Hf. exists (transposed uninit input). split; [by apply transpose_run|].
  pose proof Hv as [Hc Hr _ _ _].
  split; [apply num_columns_transposed; lia|]. split.
  - rewrite num_rows_get_column.
    by destruct (transposed_column_shape uninit input 0 ltac:(lia)) as (_ & -> & _).
  - intros j Hj.
    destruct (transposed_column_shape uninit input j Hj) as (-> & -> & -> & -> & _).
    done.
Qed.

Lemma transpose_output_shape_witness :
  ∃ out,
    transpose 4 example_uninit example_table = (transpose_events example_table, Ok out) ∧
    num_columns out = num_rows example_table ∧ num_rows out = num_columns example_table ∧
    ∀ j, 0 ≤ j < num_rows example_table →
         type (get_column out j) = type (get_column example_table 0) ∧
         size (get_column out j) = num_columns example_table ∧
         offset (get_column out j) = 0 ∧
         Z.of_nat (length (data (get_column out j))) = num_columns example_table.
Proof.
  apply (transpose_output_shape 4 example_uninit example_table).
  - solve_example_valid.
  - solve_example_fuel.
Defined.

(** * Validity of the result *)

Lemma filter_ext_in {A : Type} (P Q : A → Prop)
    `{!∀ x, Decision (P x), !∀ x, Decision (Q x)} (l : list A) :
  (∀ x, x ∈ l → (P x ↔ Q x)) → filter P l = filter Q l.
Proof.
  induction l as [|a l IH]; intros Hall; [done|].
  rewrite !filter_cons. rewrite IH by (intros; apply Hall; by right).
  destruct (Hall a ltac:(left)). repeat case_decide; try done; tauto.
Qed.

Lemma mask_bit_is_valid c i b : mask_bit c i = Some b → is_valid c i = b.
Proof.
  unfold mask_bit, is_valid. destruct (null_mask c); simpl; [|done]. congruence.
Qed.

Lemma transposed_is_valid uninit input i j :
  valid_input input → has_nulls input = true →
  0 ≤ i < num_columns input → 0 ≤ j < num_rows input →
  is_valid (get_column (transposed uninit input) j) i = is_valid (get_column input i) j.
Proof.
  intros Hv Hn Hi Hj. apply mask_bit_is_valid.
  by destruct (transposed_mask_bits uninit input i j Hv Hn Hi Hj).
Qed.

Lemma transposed_no_mask uninit input i j :
  has_nulls input = false → 0 ≤ j < num_rows input →
  is_valid (get_column (transposed uninit input) j) i = true.
Proof.
  intros Hn Hj.
  destruct (transposed_column_shape uninit input j Hj) as (_ & _ & _ & _ & Hm).
  unfold is_valid. destruct (null_mask _) eqn:E; [|done].
  assert (has_nulls input = true) by (apply Hm; by eexists). congruence.
Qed.

(** The null count that [transpose] records on an output column is the
    number of rows that the column's own mask marks as null. *)
Theorem transpose_null_count_consistent fuel uninit input :
  valid_input input → has_nulls input = true → enough_fuel fuel input →
  ∃ out,
    transpose fuel uninit input = (transpose_events input, Ok out) ∧
    ∀ j, 0 ≤ j < num_rows input →
         null_count (get_column out j) = column_nulls (get_column out j).
Proof.
  intros Hv Hn Hf. exists (transposed uninit input). split; [by apply transpose_run|].
  intros j Hj. rewrite transposed_null_count by done.
  unfold column_nulls, row_nulls.
  destruct (transposed_column_shape uninit input j Hj) as (_ & -> & _).
  do 2 f_equal. apply filter_ext_in. intros i Hi%elem_of_seqZ.
  by rewrite transposed_is_valid by (done || lia).
Qed.

Lemma transpose_null_count_consistent_witness :
  ∃ out,
    transpose 4 example_uninit example_table = (transpose_events example_table, Ok out) ∧
    ∀ j, 0 ≤ j < num_rows example_table →
         null_count (get_column out j) = column_nulls (get_column out j).
Proof.
  apply (transpose_null_count_consistent 4 example_uninit example_table).
  - solve_example_valid.
  - reflexivity.
  - solve_example_fuel.
Defined.

Lemma has_nulls_false (l : table_view) c :
  has_nulls l = false → c ∈ l → null_count c ≤ 0.
Proof.
  intros Hn Hc. unfold has_nulls in Hn.
  destruct (decide (0 < null_count c)) as [Hpos|]; [|lia].
  assert (existsb col_has_nulls l = true) as Ht; [|congruence].
  apply existsb_exists. exists c. split; [by apply list_elem_of_In|].
  by apply bool_decide_eq_true_2.
Qed.

Lemma row_nulls_zero input i j :
  row_nulls input j ≤ 0 → 0 ≤ i < num_columns input →
  is_valid (get_column input i) j = true.
Proof.
  unfold row_nulls. intros Hz Hi.
  destruct (is_valid (get_column input i) j) eqn:E; [done|].
  assert (i ∈ filter (λ i, is_valid (get_column input i) j = false)
                     (seqZ 0 (num_columns input))) as Hin.
  { apply list_elem_of_filter. split; [done|]. apply elem_of_seqZ. lia. }
  destruct (filter _ _); [by apply elem_of_nil in Hin|]. simpl in Hz. lia.
Qed.

(** Transposing twice gives back the validity of every element, for a
    valid table whose recorded null counts do not hide nulls (a table
    without recorded nulls has only valid elements). *)
Theorem transpose_round_trip_validity fuel uninit1 uninit2 input :
  valid_input input → enough_fuel fuel input →
  (has_nulls input = false →
     ∀ i j, 0 ≤ i < num_columns input → 0 ≤ j < num_rows input →
            is_valid (get_column input i) j = true) →
  ∃ out1 out2,
    transpose fuel uninit1 input = (transpose_events input, Ok out1) ∧
    transpose fuel uninit2 out1 = (transpose_events out1, Ok out2) ∧
    ∀ i j, 0 ≤ i < num_columns input → 0 ≤ j < num_rows input →
           is_valid (get_column out2 i) j = is_valid (get_column input i) j.
Proof.
  intros Hv Hf Hcons.
  pose proof (transposed_valid uninit1 input Hv) as Hv1.
  pose proof (enough_fuel_transposed fuel uninit1 input Hv Hf) as Hf1.
  pose proof Hv as [Hc Hr _ _ _].
  assert (num_columns (transposed uninit1 input) = num_rows input) as Hnc
    by (apply num_columns_transposed; lia).
  assert (num_rows (transposed uninit1 input) = num_columns input) as Hnr.
  { rewrite num_rows_get_column.
    by destruct (transposed_column_shape uninit1 input 0 ltac:(lia)) as (_ & -> & _). }
  set (out1 := transposed uninit1 input) in *.
  exists out1, (transposed uninit2 out1).
  split; [by apply transpose_run|]. split; [by apply transpose_run|].
  intros i j Hi Hj.
  destruct (has_nulls out1) eqn:Hn1.
  - rewrite transposed_is_valid by (done || lia).
    destruct (has_nulls input) eqn:Hn.
    + by apply transposed_is_valid.
    + rewrite Hcons by done. by apply transposed_no_mask.
  - rewrite transposed_no_mask by (done || lia). symmetry.
    destruct (has_nulls input) eqn:Hn; [|by apply Hcons].
    apply row_nulls_zero; [|done].
    rewrite <- (transposed_null_count uninit1 input j Hv Hn Hj). fold out1.
    apply (has_nulls_false out1); [done|].
    unfold get_column.
    destruct (lookup_lt_is_Some_2 out1 (Z.to_nat j)) as [c Hl].
    { unfold num_columns in Hnc. lia. }
    rewrite Hl. simpl. by eapply list_elem_of_lookup_2.
Qed.

Lemma transpose_round_trip_validity_witness :
  ∃ out1 out2,
    transpose 4 example_uninit example_table = (transpose_events example_table, Ok out1) ∧
    transpose 4 example_uninit out1 = (transpose_events out1, Ok out2) ∧
    ∀ i j, 0 ≤ i < num_columns example_table → 0 ≤ j < num_rows example_table →
           is_valid (get_column out2 i) j = is_valid (get_column example_table i) j.
Proof.
  apply (transpose_round_trip_validity 4 example_uninit example_uninit example_table).
  - solve_example_valid.
  - solve_example_fuel.
  - intros Hn. vm_compute in Hn. discriminate.
Defined.

(** * More on [mask_to_bools] *)

(** With a mask and [length > 0], [mask_to_bools] reads the bits
    [offset], ..., [offset + length - 1], each once and in this order, and
    nothing else: two masks that agree on these bits give the same
    column. *)
Theorem mask_to_bools_reads (bits bits' : list bitmask_type) (offset length : Z) :
  0 < length →
  ∃ r, mask_to_bools (Some bits) offset length = Ok r ∧
       derefs r = seqZ offset length ∧
       ((∀ k, 0 ≤ k < length →
              bit_is_set bits' (offset + k) = bit_is_set bits (offset + k)) →
        ∃ r', mask_to_bools (Some bits') offset length = Ok r' ∧ out_col r' = out_col r).
Proof.
  intros Hl. eexists. unfold mask_to_bools. rewrite !decide_False by lia.
  split; [done|]. simpl. split.
  - apply list_eq. intros n. rewrite list_lookup_fmap.
    destruct (decide (Z.of_nat n < length)).
    + by rewrite !lookup_seqZ_lt by lia.
    + by rewrite !lookup_seqZ_ge by lia.
  - intros Hagree. eexists. split; [done|]. simpl. unfold make_fixed_width_column.
    f_equal. apply list_fmap_ext. intros n k Hk%lookup_seqZ. by rewrite Hagree by lia.
Qed.

Lemma mask_to_bools_reads_witness :
  ∃ r, mask_to_bools (Some [13]) 1 3 = Ok r ∧
       derefs r = seqZ 1 3 ∧
       ((∀ k, 0 ≤ k < 3 → bit_is_set [29] (1 + k) = bit_is_set [13] (1 + k)) →
        ∃ r', mask_to_bools (Some [29]) 1 3 = Ok r' ∧ out_col r' = out_col r).
Proof. apply (mask_to_bools_reads [13] [29] 1 3). reflexivity. Defined.

(** Unpacking a range is unpacking its two parts one after the other: the
    column for [length1 + length2] rows at [offset] is the column for
    [length1] rows at [offset] followed by the column for [length2] rows
    at [offset + length1]. *)
Theorem mask_to_bools_split (bits : list bitmask_type) (offset length1 length2 : Z) :
  0 ≤ length1 → 0 ≤ length2 →
  bools_of (mask_to_bools (Some bits) offset (length1 + length2)) =
    bools_of (mask_to_bools (Some bits) offset length1) ++
    bools_of (mask_to_bools (Some bits) (offset + length1) length2).
Proof.
  intros H1 H2.
  assert (∀ o n, bools_of (mask_to_bools (Some bits) o n) =
                 (λ index, of_bool (bit_is_set bits (o + index))) <$> seqZ 0 n) as Hb.
  { intros o n. unfold mask_to_bools. case_decide as Hn; [by subst|done]. }
  rewrite !Hb. rewrite seqZ_app by done. rewrite fmap_app. f_equal.
  replace (seqZ (0 + length1) length2) with (Z.add length1 <$> seqZ 0 length2)
    by (rewrite fmap_add_seqZ; f_equal; lia).
  rewrite <- list_fmap_compose.
  apply list_fmap_ext. intros n k _. simpl. do 2 f_equal. lia.
Qed.

Lemma mask_to_bools_split_witness :
  bools_of (mask_to_bools (Some [13]) 0 (2 + 2)) =
    bools_of (mask_to_bools (Some [13]) 0 2) ++
    bools_of (mask_to_bools (Some [13]) (0 + 2) 2).
Proof. apply (mask_to_bools_split [13] 0 2 2); discriminate. Defined.

(** Unpacking the mask of an output column of [transpose] gives the
    validity of the corresponding input row: for a valid input with nulls,
    [mask_to_bools] on the mask of output column [j], for as many rows as
    the input has columns, returns the column whose element [i] is 1 when
    element [j] of input column [i] is valid and 0 otherwise. *)
Theorem mask_to_bools_of_transposed fuel uninit input j :
  valid_input input → has_nulls input = true → enough_fuel fuel input →
  0 ≤ j < num_rows input →
  ∃ out,
    transpose fuel uninit input = (transpose_events input, Ok out) ∧
    bools_of (mask_to_bools (null_mask (get_column out j)) 0 (num_columns input)) =
      (λ i, of_bool (is_valid (get_column input i) j)) <$> seqZ 0 (num_columns input).
Proof.
  intros Hv Hn Hf Hj. exists (transposed uninit input). split; [by apply transpose_run|].
  pose proof Hv as [Hc _ _ _ _].
  destruct (transposed_column_shape uninit input j Hj) as (_ & _ & Ho & _ & Hm).
  destruct (proj2 Hm Hn) as [m Hsome]. rewrite Hsome.
  unfold mask_to_bools. rewrite decide_False by lia. simpl.
  apply list_fmap_ext. intros n i Hi%lookup_seqZ. f_equal.
  pose proof (transposed_is_valid uninit input i j Hv Hn ltac:(lia) Hj) as Hval.
  unfold is_valid in Hval at 1. by rewrite Hsome, Ho in Hval.
Qed.

Lemma mask_to_bools_of_transposed_witness :
  ∃ out,
    transpose 4 example_uninit example_table = (transpose_events example_table, Ok out) ∧
    bools_of (mask_to_bools (null_mask (get_column out 1)) 0 (num_columns example_table)) =
      (λ i, of_bool (is_valid (get_column example_table i) 1))
        <$> seqZ 0 (num_columns example_table).
Proof.
  apply (mask_to_bools_of_transposed 4 example_uninit example_table 1).
  - solve_example_valid.
  - reflexivity.
  - solve_example_fuel.
  - split; vm_compute; (reflexivity || discriminate).
Defined.
